(** * Text-to-image generator ([src/App.js]): a shallow embedding

    The React component [App] owns a prompt, an image URL, a loading flag and
    a hidden canvas.  [generateImage] samples a palette, a font and a layout,
    paints the canvas and exports it.  This development embeds

    - the numeric helpers ([rand], [randInt]) over an explicit stream of
      [Math.random()] values,
    - the colour policies ([pickBgColors], [pickTextColorsForBg]),
    - the two arc layouts (the helper [drawTextOnArc] and the loop written
      inline in [generateImage]),
    - the straight-mode word wrap,
    - the canvas as a log of drawing operations, with exceptions.

    JavaScript numbers are modelled by exact rationals ([Q]): every finite
    double is a rational and the arithmetic of the program is carried out
    without rounding.  [Math.PI] is the rational value of the double.
    Strings are lists of UTF-16 code units. *)

From Stdlib Require Import QArith Qround Qminmax ZArith NArith List Bool Lia Lqa.
From Stdlib Require Import Sorted.
From Stdlib Require Import String Ascii.
Import ListNotations.

Open Scope Q_scope.

(* ------------------------------------------------------------------ *)
(** ** JavaScript numbers *)

Module JS.

(** [Math.PI], the double 3.141592653589793, as an exact fraction. *)
Definition Math_PI : Q := 884279719003555 # 281474976710656.

Definition Math_floor (x : Q) : Z := Qfloor x.

(** [Math.round] rounds half-way cases towards plus infinity. *)
Definition Math_round (x : Q) : Z := Qfloor (x + (1 # 2)).

Definition Math_max (a b : Q) : Q := Qmax a b.
Definition Math_min (a b : Q) : Q := Qmin a b.

(** [a > b] on numbers. *)
Definition gt (a b : Q) : bool := negb (Qle_bool a b).
(** [a < b] on numbers. *)
Definition lt (a b : Q) : bool := negb (Qle_bool b a).
(** [a <= b] on numbers. *)
Definition le (a b : Q) : bool := Qle_bool a b.

(** The [%] operator on numbers: the remainder has the sign of the
    dividend (the quotient is truncated towards zero). *)
Definition rem (a b : Q) : Q :=
  let q := a / b in
  a - b * inject_Z (Z.quot (Qnum q) (Zpos (Qden q))).

End JS.

(* ------------------------------------------------------------------ *)
(** ** JavaScript strings *)

Module Str.

(** A UTF-16 code unit. *)
Definition char := N.
Definition jsstring := list char.

(** Literals. *)
Definition lit (s : string) : jsstring :=
  List.map N_of_ascii (list_ascii_of_string s).

Definition SPACE : char := 32%N.

(** A string is truthy when it is not empty. *)
Definition truthy (s : jsstring) : bool :=
  match s with [] => false | _ :: _ => true end.

(** [s.split("")]: one string per code unit. *)
Definition split_chars (s : jsstring) : list jsstring :=
  List.map (fun c => [c]) s.

(** [s.split(" ")]: the pieces between single spaces; consecutive,
    leading and trailing spaces give empty pieces. *)
Fixpoint split_space (s : jsstring) : list jsstring :=
  match s with
  | [] => [[]]
  | c :: s' =>
      if N.eqb c SPACE then [] :: split_space s'
      else match split_space s' with
           | w :: ws => (c :: w) :: ws
           | [] => [[c]]
           end
  end.

(** WhiteSpace and LineTerminator code units of ECMAScript, the ones
    [trim] removes. *)
Definition isWhiteSpace (c : char) : bool :=
  let n := c in
  (N.leb 9 n && N.leb n 13) || N.eqb n 32 || N.eqb n 160
  || N.eqb n 5760 || (N.leb 8192 n && N.leb n 8202)
  || N.eqb n 8232 || N.eqb n 8233 || N.eqb n 8239
  || N.eqb n 8287 || N.eqb n 12288 || N.eqb n 65279.

Fixpoint trimStart (s : jsstring) : jsstring :=
  match s with
  | [] => []
  | c :: s' => if isWhiteSpace c then trimStart s' else s
  end.

Definition trimEnd (s : jsstring) : jsstring := rev (trimStart (rev s)).

Definition trim (s : jsstring) : jsstring := trimEnd (trimStart s).

Definition noSpace (w : jsstring) : Prop := Forall (fun c => c <> SPACE) w.

End Str.

Import Str.

(* ------------------------------------------------------------------ *)
(** ** Colours, the canvas and the world the render runs in *)

(** The colour objects [{ h, s, l }]. *)
Module Color.
Record t : Type := mk { h : Q; s : Q; l : Q }.
End Color.

(** CSS colour strings: [hsl(H, S%, L%)] and [rgba(R,G,B,A)]. *)
Inductive Css : Type :=
| Hsl (h s l : Z)
| Rgba (r g b : Z) (a : Q).

(** What [fillStyle] can hold here: a linear gradient with its stops. *)
Inductive Style : Type :=
| LinearGradient (x0 y0 x1 y1 : Q) (stops : list (Q * Css)).

(** [ctx.font], always of the shape [bold? <size>px <family>]. *)
Record Font : Type := mkFont { bold : bool; sizePx : Z; family : jsstring }.

(** The font of a fresh 2d context, [10px sans-serif]. *)
Definition defaultFont : Font := mkFont false 10 (lit "sans-serif").

(** The calls made on the 2d context, in order. *)
Inductive Op : Type :=
| Resize (w h : Q)
| SetFillStyle (st : Style)
| FillRect (x y w h : Q)
| SetFont (f : Font)
| SetTextAlign (a : jsstring)
| SetTextBaseline (b : jsstring)
| SetShadowColor (c : Css)
| SetShadowBlur (b : Z)
| SetStrokeStyle (c : Css)
| SetLineWidth (w : Q)
| Save
| Restore
| Translate (x y : Q)
| Rotate (a : Q)
| FillText (t : jsstring) (x y : Q)
| StrokeText (t : jsstring) (x y : Q).

(** The world of one render: how many [Math.random()] values and
    [strokeText] calls were consumed, the context's font, the ad hoc
    [ctx.fontSize] property, and the drawing log of the canvas. *)
Record World : Type := mkWorld {
  draws : nat;
  strokes : nat;
  font : Font;
  ctxFontSize : option Q;
  ops : list Op
}.

(** What the program cannot decide: the values of [Math.random()], the
    text metrics of the rendering surface, and which [strokeText] calls
    throw. *)
Record Env : Type := mkEnv {
  random : nat -> Q;
  measureText : Font -> jsstring -> Q;
  strokeThrows : nat -> bool
}.

(** A computation returns a value or throws, in both cases with a world. *)
Inductive Result (A : Type) : Type :=
| Ok (a : A) (w : World)
| Thrown (w : World).
Arguments Ok {A} a w.
Arguments Thrown {A} w.

Definition M (A : Type) : Type := World -> Result A.

Definition ret {A} (a : A) : M A := fun w => Ok a w.

Definition bind {A B} (m : M A) (k : A -> M B) : M B :=
  fun w => match m w with
           | Ok a w' => k a w'
           | Thrown w' => Thrown w'
           end.

(** [try { body } catch (e) { }] *)
Definition tryCatch (body : M unit) : M unit :=
  fun w => match body w with
           | Ok a w' => Ok a w'
           | Thrown w' => Ok tt w'
           end.

Declare Scope js_scope.
Delimit Scope js_scope with js.
Notation "x <- m ;; k" := (bind m (fun x => k))
  (at level 61, m at next level, right associativity) : js_scope.
Notation "m ;; k" := (bind m (fun _ => k))
  (at level 61, right associativity) : js_scope.
Open Scope js_scope.

Definition worldOf {A} (r : Result A) : World :=
  match r with Ok _ w => w | Thrown w => w end.

Definition emit (o : Op) : M unit :=
  fun w => Ok tt (mkWorld (draws w) (strokes w) (font w) (ctxFontSize w) (ops w ++ [o])).

Definition getFont : M Font := fun w => Ok (font w) w.
Definition getCtxFontSize : M (option Q) := fun w => Ok (ctxFontSize w) w.

(** [ctx.font = ...] *)
Definition setFont (f : Font) : M unit :=
  fun w => Ok tt (mkWorld (draws w) (strokes w) f (ctxFontSize w) (ops w ++ [SetFont f])).

(** [ctx.fontSize = fontSize] *)
Definition setCtxFontSize (v : Q) : M unit :=
  fun w => Ok tt (mkWorld (draws w) (strokes w) (font w) (Some v) (ops w)).

(** [canvas.width = w; canvas.height = h]: the bitmap is cleared and the
    context state is reset; the expando [ctx.fontSize] stays. *)
Definition resizeCanvas (w h : Q) : M unit :=
  fun wd => Ok tt (mkWorld (draws wd) (strokes wd) defaultFont (ctxFontSize wd) [Resize w h]).

(** A family name between double quotes (code unit 34), then the rest. *)
Definition quoted (name rest : string) : jsstring :=
  34%N :: lit name ++ 34%N :: lit rest.

Definition fonts : list jsstring := [
  quoted "Poppins" ", Arial, sans-serif";
  quoted "Montserrat" ", Arial, sans-serif";
  quoted "Arial Black" ", Gadget, sans-serif";
  quoted "Impact" ", Charcoal, sans-serif";
  quoted "Comic Sans MS" ", cursive, sans-serif";
  quoted "Georgia" ", serif";
  quoted "Courier New" ", Courier, monospace";
  quoted "Verdana" ", Geneva, sans-serif"
].

(** [hsl(h, s, l)] builds the CSS string from the rounded components. *)
Definition hsl (h s l : Q) : Css :=
  Hsl (JS.Math_round h) (JS.Math_round s) (JS.Math_round l).

Definition colorObjToCss (c : Color.t) : Css :=
  hsl (Color.h c) (Color.s c) (Color.l c).

(* ------------------------------------------------------------------ *)
(** ** The program *)

Section Program.

Context (E : Env).

(** [Math.random()] *)
Definition Math_random : M Q :=
  fun w => Ok (random E (draws w))
              (mkWorld (S (draws w)) (strokes w) (font w) (ctxFontSize w) (ops w)).

(** [rand = (min, max) => Math.random() * (max - min) + min] *)
Definition rand (min max : Q) : M Q :=
  u <- Math_random ;; ret (u * (max - min) + min).

(** [randInt = (min, max) => Math.floor(rand(min, max + 1))] *)
Definition randInt (min max : Z) : M Z :=
  x <- rand (inject_Z min) (inject_Z max + 1) ;; ret (JS.Math_floor x).

(** [ctx.strokeText(t, x, y)], which the surface may refuse. *)
Definition strokeText (t : jsstring) (x y : Q) : M unit :=
  fun w =>
    if strokeThrows E (strokes w)
    then Thrown (mkWorld (draws w) (S (strokes w)) (font w) (ctxFontSize w) (ops w))
    else Ok tt (mkWorld (draws w) (S (strokes w)) (font w) (ctxFontSize w)
                        (ops w ++ [StrokeText t x y])).

Definition pickBgColors : M (Color.t * Color.t) :=
  h1 <- randInt 0 360 ;;
  d <- randInt 20 140 ;;
  let h2 := Z.rem (h1 + d) 360 in
  s1 <- randInt 55 95 ;;
  s2 <- randInt 55 95 ;;
  l1 <- randInt 25 60 ;;
  l2 <- randInt 25 60 ;;
  ret (Color.mk (inject_Z h1) (inject_Z s1) (inject_Z l1),
       Color.mk (inject_Z h2) (inject_Z s2) (inject_Z l2)).

(** One of the two [for (let i = 0; i < n; i++)] loops of
    [pickTextColorsForBg]; they differ in the four bounds only. *)
Fixpoint textColorLoop (baseHue : Q) (sMin sMax lMin lMax : Z) (k : nat)
    (colors : list Color.t) : M (list Color.t) :=
  match k with
  | O => ret colors
  | S k' =>
      d <- randInt (-60) 60 ;;
      let hh := JS.rem (baseHue + inject_Z d + 360) 360 in
      ss <- randInt sMin sMax ;;
      ll <- randInt lMin lMax ;;
      textColorLoop baseHue sMin sMax lMin lMax k'
        (colors ++ [Color.mk hh (inject_Z ss) (inject_Z ll)])
  end.

Definition avgLightness (bgColors : Color.t * Color.t) : Q :=
  (Color.l (fst bgColors) + Color.l (snd bgColors)) / 2.

Definition pickTextColorsForBg (bgColors : Color.t * Color.t) (n : Z)
    : M (list Color.t) :=
  let avgL := avgLightness bgColors in
  let baseHue := (Color.h (fst bgColors) + Color.h (snd bgColors)) / 2 in
  if JS.gt avgL 55
  then textColorLoop baseHue 40 85 8 35 (Z.to_nat n) []
  else textColorLoop baseHue 45 95 68 98 (Z.to_nat n) [].

(** *** Arc layout *)

(** [widths.map((w) => w * spacingFactor)] over the measured characters. *)
Definition adjWidthsOf (f : Font) (text : jsstring) (spacingFactor : Q) : list Q :=
  List.map (fun w => w * spacingFactor)
           (List.map (measureText E f) (split_chars text)).

(** [adjWidths.reduce((a, b) => a + b, 0)] *)
Definition sumOf (adjWidths : list Q) : Q := fold_left Qplus adjWidths 0.

(** [Math.max(Math.min(desiredArc, Math.PI * 1.5), Math.PI * 0.3)] *)
Definition desiredArcClamped (desiredArc : Q) : Q :=
  JS.Math_max (JS.Math_min desiredArc (JS.Math_PI * 1.5)) (JS.Math_PI * 0.3).

(** [Math.max(sumWidth / desiredArcClamped, fontSize * 1.1)] *)
Definition radiusComputed (sumWidth desiredArc : Q) (fontSize : Z) : Q :=
  JS.Math_max (sumWidth / desiredArcClamped desiredArc) (inject_Z fontSize * 1.1).

(** [Math.max(1, Math.round(fontSize * 0.06))] *)
Definition strokeWidth (fontSize : Z) : Q :=
  JS.Math_max 1 (inject_Z (JS.Math_round (inject_Z fontSize * 0.06))).

(** The per-character loop written inline in [generateImage]. *)
Fixpoint arcLoop (fontSize : Z) (startAngle radius : Q)
    (glyphs : list (jsstring * Q)) (curr : Q) : M unit :=
  match glyphs with
  | [] => ret tt
  | (ch, w) :: rest =>
      let charAngle := w / radius in
      let angle := startAngle + curr + charAngle / 2 in
      emit Save ;;
      emit (Rotate angle) ;;
      emit (Translate 0 (- radius)) ;;
      emit (FillText ch 0 0) ;;
      emit (SetLineWidth (strokeWidth fontSize)) ;;
      strokeText ch 0 0 ;;
      emit Restore ;;
      arcLoop fontSize startAngle radius rest (curr + charAngle)
  end.

(** The [if (useCurve)] branch of [generateImage]. *)
Definition arcBranch (prompt : jsstring) (fontSize : Z)
    (rotateAngle desiredArc : Q) : M unit :=
  let cx := 1400 / 2 in
  j <- rand (-20) 40 ;;
  let cy := 900 / 2 - j in
  spacingFactor <-
    (if Nat.ltb 20 (List.length prompt) then ret 1.14 else rand 1.06 1.18) ;;
  emit Save ;;
  emit (Translate cx cy) ;;
  emit (Rotate rotateAngle) ;;
  f <- getFont ;;
  let chars := split_chars prompt in
  let adjWidths := adjWidthsOf f prompt spacingFactor in
  let sumWidth := sumOf adjWidths in
  let radius := radiusComputed sumWidth desiredArc fontSize in
  let startAngle := - desiredArcClamped desiredArc / 2 in
  arcLoop fontSize startAngle radius (combine chars adjWidths) 0 ;;
  emit Restore.

(** [Math.max(1, ctx.fontSize * 0.06 || 2)]: an undefined [ctx.fontSize]
    gives NaN, and NaN and 0 are falsy. *)
Definition arcStrokeWidth (ctxFontSize : option Q) : Q :=
  JS.Math_max 1
    match ctxFontSize with
    | Some fs => if Qeq_bool (fs * 0.06) 0 then 2 else fs * 0.06
    | None => 2
    end.

(** The per-character loop of [drawTextOnArc]; the stroke is inside a
    [try]/[catch]. *)
Fixpoint drawArcLoop (startAngle radiusComputed : Q)
    (glyphs : list (jsstring * Q)) (curr : Q) : M unit :=
  match glyphs with
  | [] => ret tt
  | (ch, w) :: rest =>
      let charAngle := w / radiusComputed in
      let angle := startAngle + curr + charAngle / 2 in
      emit Save ;;
      emit (Rotate angle) ;;
      emit (Translate 0 (- radiusComputed)) ;;
      emit (FillText ch 0 0) ;;
      fs <- getCtxFontSize ;;
      emit (SetLineWidth (arcStrokeWidth fs)) ;;
      tryCatch (strokeText ch 0 0) ;;
      emit Restore ;;
      drawArcLoop startAngle radiusComputed rest (curr + charAngle)
  end.

(** [drawTextOnArc(ctx, text, cx, cy, radius, desiredArc, spacingFactor)];
    the parameter [radius] is not used by the function. *)
Definition drawTextOnArc (text : jsstring) (cx cy : Q) (desiredArc spacingFactor : Q)
    : M unit :=
  f <- getFont ;;
  let chars := split_chars text in
  let adjWidths := adjWidthsOf f text spacingFactor in
  let sumWidth := sumOf adjWidths in
  if JS.le sumWidth 0 then emit (FillText text cx cy)
  else
    let radiusComputed := sumWidth / desiredArc in
    let startAngle := - desiredArc / 2 in
    emit Save ;;
    emit (Translate cx cy) ;;
    drawArcLoop startAngle radiusComputed (combine chars adjWidths) 0 ;;
    emit Restore.

(** *** Straight layout *)

(** [width * 0.8] with [width = 1400]. *)
Definition maxWidth : Q := 1400 * 0.8.

(** The wrapping loop of the straight branch: [lines] and [currentLine]
    after the words were consumed. *)
Fixpoint wrapLoop (f : Font) (words : list jsstring) (lines : list jsstring)
    (currentLine : jsstring) : list jsstring * jsstring :=
  match words with
  | [] => (lines, currentLine)
  | word :: rest =>
      let testLine :=
        if truthy currentLine then currentLine ++ SPACE :: word else word in
      if JS.gt (measureText E f testLine) maxWidth && truthy currentLine
      then wrapLoop f rest (lines ++ [currentLine]) word
      else wrapLoop f rest lines testLine
  end.

(** The loop followed by [if (currentLine) lines.push(currentLine)]. *)
Definition wrapLines (f : Font) (prompt : jsstring) : list jsstring :=
  let '(lines, currentLine) := wrapLoop f (split_space prompt) [] [] in
  if truthy currentLine then lines ++ [currentLine] else lines.


(** [startY = -((lines.length - 1) * lineHeight) / 2] *)
Definition startYOf (nlines : nat) (lineHeight : Q) : Q :=
  - ((inject_Z (Z.of_nat nlines) - 1) * lineHeight) / 2.

(** The drawing loop over the wrapped lines, from index [i]. *)
Fixpoint lineLoop (fontSize : Z) (startY lineHeight : Q)
    (lines : list jsstring) (i : nat) : M unit :=
  match lines with
  | [] => ret tt
  | line :: rest =>
      let y := startY + inject_Z (Z.of_nat i) * lineHeight in
      emit (FillText line 0 y) ;;
      emit (SetLineWidth (strokeWidth fontSize)) ;;
      strokeText line 0 y ;;
      lineLoop fontSize startY lineHeight rest (S i)
  end.

(** The [else] branch of [generateImage]. *)
Definition straightBranch (prompt : jsstring) (fontSize : Z) (rotateAngle : Q)
    : M unit :=
  let cx := 1400 / 2 in
  let cy := 900 / 2 in
  emit Save ;;
  emit (Translate cx cy) ;;
  emit (Rotate rotateAngle) ;;
  f <- getFont ;;
  let lines := wrapLines f prompt in
  let lineHeight := inject_Z fontSize * 1.12 in
  let startY := startYOf (List.length lines) lineHeight in
  lineLoop fontSize startY lineHeight lines 0 ;;
  emit Restore.

(** *** Palette and composition *)

(** [i / (textColorObjs.length - 1 || 1)] for each stop. *)
Fixpoint gradStops (len : nat) (cs : list Color.t) (i : nat) : list (Q * Css) :=
  match cs with
  | [] => []
  | c :: rest =>
      let d := if Nat.eqb (len - 1) 0 then 1 else inject_Z (Z.of_nat len) - 1 in
      (inject_Z (Z.of_nat i) / d, colorObjToCss c) :: gradStops len rest (S i)
  end.

(** [shadowIsLight ? "rgba(255,255,255,0.25)" : "rgba(0,0,0,0.35)"] with
    [shadowIsLight = avgBgL < 55]. *)
Definition shadowColor (avgBgL : Q) : Css :=
  let shadowIsLight := JS.lt avgBgL 55 in
  if shadowIsLight then Rgba 255 255 255 0.25 else Rgba 0 0 0 0.35.

(** [Math.round(fontSize * 0.12)] *)
Definition shadowBlur (fontSize : Z) : Z :=
  JS.Math_round (inject_Z fontSize * 0.12).

(** [avgBgL > 55 ? "rgba(0,0,0,0.45)" : "rgba(255,255,255,0.45)"] *)
Definition strokeStyle (avgBgL : Q) : Css :=
  if JS.gt avgBgL 55 then Rgba 0 0 0 0.45 else Rgba 255 255 255 0.45.

(** The body of the [try] block of the timeout callback, up to the
    export of the canvas. *)
Definition tryBlock (prompt : jsstring) : M unit :=
  let width := 1400 in
  let height := 900 in
  resizeCanvas width height ;;
  bg <- pickBgColors ;;
  emit (SetFillStyle (LinearGradient 0 0 width height
          [(0, colorObjToCss (fst bg)); (1, colorObjToCss (snd bg))])) ;;
  emit (FillRect 0 0 width height) ;;
  r <- randInt 0 1 ;;
  let stops := (2 + r)%Z in
  textColorObjs <- pickTextColorsForBg bg stops ;;
  let textGrad :=
    LinearGradient (width * 0.1) 0 (width * 0.9) 0
      (gradStops (List.length textColorObjs) textColorObjs 0) in
  i <- randInt 0 (Z.of_nat (List.length fonts) - 1) ;;
  let fontFamily := nth (Z.to_nat i) fonts [] in
  n <- randInt 70 140 ;;
  let fontSize := JS.Math_round (inject_Z n * 1.2) in
  setFont (mkFont true fontSize fontFamily) ;;
  setCtxFontSize (inject_Z fontSize) ;;
  emit (SetTextAlign (lit "center")) ;;
  emit (SetTextBaseline (lit "middle")) ;;
  let avgBgL := avgLightness bg in
  emit (SetShadowColor (shadowColor avgBgL)) ;;
  emit (SetShadowBlur (shadowBlur fontSize)) ;;
  emit (SetFillStyle textGrad) ;;
  emit (SetStrokeStyle (strokeStyle avgBgL)) ;;
  u <- Math_random ;;
  let useCurve := JS.gt u 0.35 in
  rotateAngle <- rand (-0.35) 0.35 ;;
  desiredArc <- rand (JS.Math_PI * 0.55) (JS.Math_PI * 0.95) ;;
  if useCurve
  then arcBranch prompt fontSize rotateAngle desiredArc
  else straightBranch prompt fontSize rotateAngle.

(** *** What the loops compute *)

(** A glyph placement: the character, the angle its frame is rotated by
    and the radius it is pushed out to. *)
Record GlyphPlacement : Type := mkPlacement {
  character : jsstring;
  angleRadians : Q;
  radiusPx : Q
}.

(** The [angle] and radius of each iteration of the arc loops, with the
    same recurrence on [curr]. *)
Fixpoint placements (startAngle radius : Q) (glyphs : list (jsstring * Q))
    (curr : Q) : list GlyphPlacement :=
  match glyphs with
  | [] => []
  | (ch, w) :: rest =>
      let charAngle := w / radius in
      let angle := startAngle + curr + charAngle / 2 in
      mkPlacement ch angle radius
        :: placements startAngle radius rest (curr + charAngle)
  end.



(** The characters of [text] with their adjusted widths. *)
Definition glyphsOf (f : Font) (text : jsstring) (spacingFactor : Q)
    : list (jsstring * Q) :=
  combine (split_chars text) (adjWidthsOf f text spacingFactor).

(** The placements of the inline loop of [generateImage]. *)
Definition arcLayout (f : Font) (prompt : jsstring) (spacingFactor desiredArc : Q)
    (fontSize : Z) : list GlyphPlacement :=
  let adjWidths := adjWidthsOf f prompt spacingFactor in
  placements (- desiredArcClamped desiredArc / 2)
    (radiusComputed (sumOf adjWidths) desiredArc fontSize)
    (glyphsOf f prompt spacingFactor) 0.


(** The placements read back from a drawing log: a rotation, the push
    along the rotated axis, and the glyph filled at the local origin. *)
Fixpoint glyphsDrawn (log : list Op) : list GlyphPlacement :=
  match log with
  | [] => []
  | Rotate a :: rest =>
      match rest with
      | Translate _ y :: FillText ch _ _ :: _ =>
          mkPlacement ch a (- y) :: glyphsDrawn rest
      | _ => glyphsDrawn rest
      end
  | _ :: rest => glyphsDrawn rest
  end.

(** *** The component state *)

(** [imageUrl]: the empty string, or the data URL of a canvas content. *)
Inductive Url : Type :=
| EmptyUrl
| DataUrl (content : list Op).

(** The state of [App] the generator touches, the world with the canvas,
    the callbacks [setTimeout] holds (each with the prompt it closed
    over), and the number of [console.error] calls. *)
Record AppState : Type := mkApp {
  prompt : jsstring;
  imageUrl : Url;
  loading : bool;
  world : World;
  timers : list jsstring;
  errors : nat
}.

(** [generateImage], up to the registration of the callback. *)
Definition generateImage (st : AppState) : AppState :=
  if negb (truthy (trim (prompt st))) then st
  else mkApp (prompt st) EmptyUrl true (world st)
             (timers st ++ [prompt st]) (errors st).

(** The callback given to [setTimeout], for the prompt [p] it closed
    over: [try { ... setImageUrl(url) } catch { console.error } finally
    { setLoading(false) }]. *)
Definition timeoutCallback (p : jsstring) (st : AppState) : AppState :=
  match tryBlock p (world st) with
  | Ok _ w => mkApp (prompt st) (DataUrl (ops w)) false w (timers st) (errors st)
  | Thrown w => mkApp (prompt st) (imageUrl st) false w (timers st) (S (errors st))
  end.

(** The oldest pending timer fires. *)
Definition fireTimer (st : AppState) : AppState :=
  match timers st with
  | [] => st
  | p :: rest =>
      timeoutCallback p
        (mkApp (prompt st) (imageUrl st) (loading st) (world st) rest (errors st))
  end.

End Program.

(* ------------------------------------------------------------------ *)
(** ** Two runs side by side *)


(* ------------------------------------------------------------------ *)
(** ** Reading a drawing log *)

(** The calls one pass of the inline arc loop makes when no stroke is
    refused. *)
Fixpoint arcLoopOps (fontSize : Z) (startAngle radius : Q)
    (glyphs : list (jsstring * Q)) (curr : Q) : list Op :=
  match glyphs with
  | [] => []
  | (ch, w) :: rest =>
      let charAngle := w / radius in
      let angle := startAngle + curr + charAngle / 2 in
      [Save; Rotate angle; Translate 0 (- radius); FillText ch 0 0;
       SetLineWidth (strokeWidth fontSize); StrokeText ch 0 0; Restore]
      ++ arcLoopOps fontSize startAngle radius rest (curr + charAngle)
  end.

(** Two placements of the same character at equal angle and radius. *)
Definition samePlacement (p q : GlyphPlacement) : Prop :=
  character p = character q
  /\ angleRadians p == angleRadians q
  /\ radiusPx p == radiusPx q.

Definition isRotate (o : Op) : bool :=
  match o with Rotate _ => true | _ => false end.

(** The texts filled, in order. *)
Fixpoint textsFilled (log : list Op) : list jsstring :=
  match log with
  | [] => []
  | FillText t _ _ :: rest => t :: textsFilled rest
  | _ :: rest => textsFilled rest
  end.

(** Black and white in the [rgba] strings of the outline and shadow. *)
Definition isBlack (c : Css) : bool :=
  match c with
  | Rgba r g b _ => Z.eqb r 0 && Z.eqb g 0 && Z.eqb b 0
  | Hsl _ _ _ => false
  end.

Definition alphaOf (c : Css) : Q :=
  match c with
  | Rgba _ _ _ a => a
  | Hsl _ _ _ => 1
  end.

(* ------------------------------------------------------------------ *)
(** ** Sample surroundings *)

(** A fresh world. *)
Definition world0 : World := mkWorld 0 0 defaultFont None [].

(** Every [Math.random()] is one half, every character is ten pixels
    wide, no stroke is refused. *)
Definition envPlain : Env :=
  mkEnv (fun _ => 1 # 2)
        (fun _ t => 10 * inject_Z (Z.of_nat (List.length t)))
        (fun _ => false).

(** As [envPlain], with glyphs of no width. *)
Definition envZeroWidth : Env :=
  mkEnv (fun _ => 1 # 2) (fun _ _ => 0) (fun _ => false).

(** As [envPlain], with six hundred pixels per character and the first
    [strokeText] call refused. *)
Definition envStrokeFails : Env :=
  mkEnv (fun _ => 1 # 2)
        (fun _ t => 600 * inject_Z (Z.of_nat (List.length t)))
        (fun k => Nat.eqb k 0).

(** As [envStrokeFails], in straight mode ([Math.random()] is one
    tenth). *)
Definition envStrokeFailsStraight : Env :=
  mkEnv (fun _ => 1 # 10)
        (fun _ t => 600 * inject_Z (Z.of_nat (List.length t)))
        (fun k => Nat.eqb k 0).

(** The zero-width space U+200B, which [trim] keeps. *)
Definition ZWSP : char := 8203%N.

(** The component before anything was generated. *)
Definition app0 (prompt : jsstring) : AppState :=
  mkApp prompt EmptyUrl false world0 [] 0.


(* ------------------------------------------------------------------ *)
(** ** The helpers and handlers around the render *)

Section Handlers.

Context (E : Env).

(** [drawCenteredRotatedText(ctx, text, cx, cy, fontSize, rotation)]; the
    stroke is not guarded. *)
Definition drawCenteredRotatedText (text : jsstring) (cx cy : Q) (fontSize : Z)
    (rotation : Q) : M unit :=
  emit Save ;;
  emit (Translate cx cy) ;;
  emit (Rotate rotation) ;;
  emit (FillText text 0 0) ;;
  emit (SetLineWidth
          (JS.Math_max 2 (inject_Z (JS.Math_round (inject_Z fontSize * 0.06))))) ;;
  strokeText E text 0 0 ;;
  emit Restore.

End Handlers.

(** [setLoading(v)] *)
Definition setLoading (v : bool) (st : AppState) : AppState :=
  mkApp (prompt st) (imageUrl st) v (world st) (timers st) (errors st).

(** The click on Regenerate followed by its timeout, with nothing in
    between: [setLoading(true)], then [generateImage()] of the closure of
    the click. *)
Definition regenerate (st : AppState) : AppState :=
  generateImage (setLoading true st).

(** [disabled={loading || !prompt.trim()}] of the Generate button. *)
Definition generateDisabled (st : AppState) : bool :=
  loading st || negb (truthy (trim (prompt st))).

(** [downloadImage]: nothing without an image, else a click on a link to
    the image named [stylish-text.png]. *)
Definition downloadImage (st : AppState) : option (jsstring * list Op) :=
  match imageUrl st with
  | EmptyUrl => None
  | DataUrl content => Some (lit "stylish-text.png", content)
  end.

(* ------------------------------------------------------------------ *)
(** ** More readings of a log and of a world *)

(** The world after [n] more values of [Math.random()] were consumed. *)
Definition advance (n : nat) (w : World) : World :=
  mkWorld (n + draws w) (strokes w) (font w) (ctxFontSize w) (ops w).

(** The depth of the stack of saved states after a log, from depth [d];
    nothing when a [restore] finds the stack empty. *)
Fixpoint depthAfter (d : nat) (log : list Op) : option nat :=
  match log with
  | [] => Some d
  | Save :: rest => depthAfter (S d) rest
  | Restore :: rest =>
      match d with
      | O => None
      | S d' => depthAfter d' rest
      end
  | _ :: rest => depthAfter d rest
  end.

(** The texts filled with the ordinate they were filled at. *)
Fixpoint fillsOf (log : list Op) : list (jsstring * Q) :=
  match log with
  | [] => []
  | FillText t _ y :: rest => (t, y) :: fillsOf rest
  | _ :: rest => fillsOf rest
  end.

(** The calls of the loop over the wrapped lines when no stroke is
    refused. *)
Fixpoint lineLoopOps (fontSize : Z) (startY lineHeight : Q)
    (lines : list jsstring) (i : nat) : list Op :=
  match lines with
  | [] => []
  | line :: rest =>
      let y := startY + inject_Z (Z.of_nat i) * lineHeight in
      [FillText line 0 y; SetLineWidth (strokeWidth fontSize); StrokeText line 0 y]
      ++ lineLoopOps fontSize startY lineHeight rest (S i)
  end.

(** The ordinates of [n] lines from index [i]. *)
Fixpoint lineOffsets (startY lineHeight : Q) (n i : nat) : list Q :=
  match n with
  | O => []
  | S n' =>
      (startY + inject_Z (Z.of_nat i) * lineHeight)
        :: lineOffsets startY lineHeight n' (S i)
  end.

(** The pieces joined with single spaces, as [pieces.join(" ")]. *)
Fixpoint joinSpace (pieces : list jsstring) : jsstring :=
  match pieces with
  | [] => []
  | [p] => p
  | p :: rest => p ++ SPACE :: joinSpace rest
  end.


(** The divisor of the stop offsets, [length - 1 || 1]. *)
Definition stopDivisor (len : nat) : Q :=
  if Nat.eqb (len - 1) 0 then 1 else inject_Z (Z.of_nat len) - 1.

(** The world the [try] block hands over to one of its branches, for a
    palette and a font: the canvas cleared and ten calls in the log. *)
Definition paletteWorld (n s : nat) (bg : Color.t * Color.t)
    (colors : list Color.t) (fontFamily : jsstring) (fontSize : Z) : World :=
  mkWorld n s (mkFont true fontSize fontFamily) (Some (inject_Z fontSize))
    [Resize 1400 900;
     SetFillStyle (LinearGradient 0 0 1400 900
                     [(0, colorObjToCss (fst bg)); (1, colorObjToCss (snd bg))]);
     FillRect 0 0 1400 900;
     SetFont (mkFont true fontSize fontFamily);
     SetTextAlign (lit "center");
     SetTextBaseline (lit "middle");
     SetShadowColor (shadowColor (avgLightness bg));
     SetShadowBlur (shadowBlur fontSize);
     SetFillStyle (LinearGradient (1400 * 0.1) 0 (1400 * 0.9) 0
                     (gradStops (List.length colors) colors 0));
     SetStrokeStyle (strokeStyle (avgLightness bg))].

(** A world left by an earlier drawing: another font, a [ctx.fontSize],
    a saved state and a text on the canvas. *)
Definition worldUsed : World :=
  mkWorld 0 0 (mkFont true 99 (lit "serif")) (Some 5)
    [Save; FillText (lit "old") 0 0].

(* ------------------------------------------------------------------ *)
(** ** Facts about numbers and strings *)

Module JSFacts.
Import JS.

Lemma gt_true (a b : Q) : gt a b = true <-> b < a.
Proof.
  unfold gt. rewrite negb_true_iff.
  split; intro H.
  - apply Qnot_le_lt. intro L. apply Qle_bool_iff in L. congruence.
  - destruct (Qle_bool a b) eqn:E; [|reflexivity].
    apply Qle_bool_iff in E. exfalso. apply (Qlt_not_le _ _ H E).
Qed.

Lemma gt_false (a b : Q) : gt a b = false <-> a <= b.
Proof.
  unfold gt. rewrite negb_false_iff. apply Qle_bool_iff.
Qed.

Lemma lt_true (a b : Q) : lt a b = true <-> a < b.
Proof. apply gt_true. Qed.

Lemma lt_false (a b : Q) : lt a b = false <-> b <= a.
Proof. apply gt_false. Qed.

Lemma Math_PI_pos : 0 < Math_PI.
Proof. reflexivity. Qed.

Lemma Math_max_ge_r (a b : Q) : b <= Math_max a b.
Proof. apply Q.le_max_r. Qed.

Lemma Math_max_ge_l (a b : Q) : a <= Math_max a b.
Proof. apply Q.le_max_l. Qed.

End JSFacts.

Module StrFacts.

Lemma split_space_nonnil (s : jsstring) : split_space s <> [].
Proof.
  induction s as [|c s IH]; simpl; [discriminate|].
  destruct (N.eqb c SPACE); [discriminate|].
  destruct (split_space s); discriminate.
Qed.

Lemma split_space_word (w : jsstring) : noSpace w -> split_space w = [w].
Proof.
  induction 1 as [|c w Hc _ IH]; simpl; [reflexivity|].
  apply N.eqb_neq in Hc. rewrite Hc, IH. reflexivity.
Qed.

Lemma split_space_noSpace (s : jsstring) : Forall noSpace (split_space s).
Proof.
  induction s as [|c s IH]; simpl.
  - repeat constructor.
  - destruct (N.eqb c SPACE) eqn:E.
    + constructor; [constructor | exact IH].
    + apply N.eqb_neq in E.
      destruct (split_space s) as [|w ws].
      * repeat constructor. exact E.
      * inversion IH; subst. constructor; [constructor; assumption | assumption].
Qed.

(** Splitting a string built with a separating space splits both sides. *)
Lemma split_space_join (a b : jsstring) :
  split_space (a ++ SPACE :: b) = split_space a ++ split_space b.
Proof.
  induction a as [|c a IH]; simpl.
  - reflexivity.
  - destruct (N.eqb c SPACE).
    + rewrite IH. reflexivity.
    + rewrite IH. pose proof (split_space_nonnil a) as Hn.
      destruct (split_space a); [congruence | reflexivity].
Qed.

Lemma trimStart_all_ws (s : jsstring) :
  forallb isWhiteSpace s = true -> trimStart s = [].
Proof.
  induction s as [|c s IH]; simpl; [reflexivity|].
  intros H. apply andb_true_iff in H as [Hc Hs]. rewrite Hc. auto.
Qed.

Lemma trim_all_ws (s : jsstring) :
  forallb isWhiteSpace s = true -> trim s = [].
Proof.
  intros H. unfold trim, trimEnd. rewrite (trimStart_all_ws s H). reflexivity.
Qed.

Lemma trimStart_nil_inv (s : jsstring) :
  trimStart s = [] -> forallb isWhiteSpace s = true.
Proof.
  induction s as [|c s IH]; simpl; [reflexivity|].
  destruct (isWhiteSpace c); [auto | discriminate].
Qed.

Lemma trimStart_suffix (s : jsstring) :
  exists p, s = p ++ trimStart s /\ forallb isWhiteSpace p = true.
Proof.
  induction s as [|c s [p [E W]]]; simpl.
  - exists []. auto.
  - destruct (isWhiteSpace c) eqn:Hc.
    + exists (c :: p). simpl. rewrite Hc, W. split; [f_equal; exact E | reflexivity].
    + exists []. auto.
Qed.

Lemma forallb_rev_eq {A} (f : A -> bool) (l : list A) :
  forallb f (rev l) = forallb f l.
Proof.
  induction l as [|a l IH]; simpl; [reflexivity|].
  rewrite forallb_app, IH. simpl. rewrite andb_true_r. apply andb_comm.
Qed.

(** [trim] is empty exactly on strings of white space. *)
Lemma trim_nil_iff (s : jsstring) :
  trim s = [] <-> forallb isWhiteSpace s = true.
Proof.
  split; [|apply trim_all_ws].
  unfold trim, trimEnd. intros H.
  apply (f_equal (@rev char)) in H. rewrite rev_involutive in H. simpl in H.
  apply trimStart_nil_inv in H. rewrite forallb_rev_eq in H.
  destruct (trimStart_suffix s) as [p [E W]].
  rewrite E, forallb_app, W, H. reflexivity.
Qed.

End StrFacts.

(* ------------------------------------------------------------------ *)
(** ** Arithmetic of the arc loops *)


Section ArcFacts.

Lemma Qdiv_nonneg (a r : Q) : 0 <= a -> 0 < r -> 0 <= a / r.
Proof.
  intros Ha Hr. apply Qle_shift_div_l; [exact Hr | lra].
Qed.


Lemma fold_left_Qplus_acc (l : list Q) (a : Q) :
  fold_left Qplus l a == a + fold_left Qplus l 0.
Proof.
  revert a. induction l as [|x l IH]; intros a; simpl.
  - ring.
  - rewrite (IH (a + x)), (IH (0 + x)). ring.
Qed.

Lemma sumOf_cons (x : Q) (l : list Q) : sumOf (x :: l) == x + sumOf l.
Proof.
  unfold sumOf. simpl. rewrite fold_left_Qplus_acc. ring.
Qed.



Context (E : Env).


Lemma glyphsOf_widths (f : Font) (text : jsstring) (sf : Q) :
  List.map snd (glyphsOf E f text sf) = adjWidthsOf E f text sf.
Proof.
  unfold glyphsOf, adjWidthsOf, split_chars.
  induction text as [|c text IH]; simpl; [reflexivity | now rewrite IH].
Qed.







Lemma radiusComputed_floor (sumWidth desiredArc : Q) (fontSize : Z) :
  inject_Z fontSize * 1.1 <= radiusComputed sumWidth desiredArc fontSize.
Proof. apply Q.le_max_r. Qed.

(** The divisor of [w / radiusComputed] is never zero. *)
Lemma radiusComputed_pos (sumWidth desiredArc : Q) (fontSize : Z) :
  (0 < fontSize)%Z -> 0 < radiusComputed sumWidth desiredArc fontSize.
Proof.
  intros Hf. apply Qlt_le_trans with (inject_Z fontSize * 1.1).
  - apply Qmult_lt_0_compat; [|reflexivity].
    change 0 with (inject_Z 0). rewrite <- Zlt_Qlt. exact Hf.
  - apply radiusComputed_floor.
Qed.











(** The midpoint rule: the angle of the placement of index [i] is the
    start angle, plus the slices of the characters before it, plus half
    its own slice. *)
Lemma placements_midpoint (startAngle radius : Q) :
  forall glyphs curr i p,
    nth_error (placements startAngle radius glyphs curr) i = Some p ->
    exists ch w,
      nth_error glyphs i = Some (ch, w)
      /\ character p = ch
      /\ angleRadians p
         == startAngle
            + (curr + sumOf (List.map snd (firstn i glyphs)) / radius)
            + (w / radius) / 2.
Proof.
  induction glyphs as [|[ch w] rest IH]; intros curr i p Hp.
  - destruct i; discriminate.
  - destruct i as [|i]; simpl in Hp.
    + injection Hp as <-. exists ch, w. repeat split. simpl.
      unfold sumOf. simpl. unfold Qdiv. ring.
    + destruct (IH _ _ _ Hp) as [ch' [w' [Hn [Hc Ha]]]].
      exists ch', w'. split; [exact Hn|]. split; [exact Hc|].
      rewrite Ha. simpl. rewrite sumOf_cons. unfold Qdiv. ring.
Qed.

Lemma arcLayout_midpoint (f : Font) (prompt : jsstring) (sf desiredArc : Q)
    (fontSize : Z) (i : nat) (p : GlyphPlacement) :
  let adjWidths := adjWidthsOf E f prompt sf in
  let radius := radiusComputed (sumOf adjWidths) desiredArc fontSize in
  nth_error (arcLayout E f prompt sf desiredArc fontSize) i = Some p ->
  exists w,
    nth_error adjWidths i = Some w
    /\ angleRadians p
       == - desiredArcClamped desiredArc / 2
          + sumOf (firstn i adjWidths) / radius
          + (w / radius) / 2.
Proof.
  intros adjWidths radius Hp. unfold arcLayout in Hp.
  destruct (placements_midpoint _ _ _ _ _ _ Hp) as [ch [w [Hn [_ Ha]]]].
  exists w. split.
  - unfold adjWidths. rewrite <- (glyphsOf_widths f prompt sf).
    rewrite (map_nth_error snd _ _ Hn). reflexivity.
  - rewrite Ha. rewrite <- firstn_map, glyphsOf_widths.
    fold adjWidths. fold radius. ring.
Qed.


End ArcFacts.

(* ------------------------------------------------------------------ *)
(** ** The arc layout of [generateImage] *)

Section ArcLayout.

Context (E : Env) (f : Font).



End ArcLayout.

(* ------------------------------------------------------------------ *)
(** ** What the arc loops draw *)

Section ArcRuns.

Context (E : Env).

Lemma samePlacement_refl (p : GlyphPlacement) : samePlacement p p.
Proof. repeat split; reflexivity. Qed.

Lemma samePlacement_list_refl (ps : list GlyphPlacement) :
  Forall2 samePlacement ps ps.
Proof.
  induction ps; constructor; [apply samePlacement_refl | assumption].
Qed.

Lemma glyphsDrawn_skip (o : Op) (log : list Op) :
  isRotate o = false -> glyphsDrawn (o :: log) = glyphsDrawn log.
Proof. destruct o; simpl; intros H; try reflexivity; discriminate. Qed.

Lemma glyphsDrawn_app_noRotate (pre post : list Op) :
  forallb (fun o => negb (isRotate o)) pre = true ->
  glyphsDrawn (pre ++ post) = glyphsDrawn post.
Proof.
  induction pre as [|o pre IH]; simpl; [reflexivity|].
  intros H. apply andb_true_iff in H as [Ho Hpre].
  apply negb_true_iff in Ho.
  change (glyphsDrawn (o :: pre ++ post) = glyphsDrawn post).
  rewrite (glyphsDrawn_skip o _ Ho). auto.
Qed.

(** The log of the inline loop holds one placement per glyph, the ones
    of [placements]. *)
Lemma glyphsDrawn_arcLoopOps (fontSize : Z) (startAngle radius : Q)
    (glyphs : list (jsstring * Q)) (tail : list Op) :
  forall curr,
    Forall2 samePlacement (glyphsDrawn tail) [] ->
    Forall2 samePlacement
      (glyphsDrawn (arcLoopOps fontSize startAngle radius glyphs curr ++ tail))
      (placements startAngle radius glyphs curr).
Proof.
  induction glyphs as [|[ch w] rest IH]; intros curr Ht; simpl.
  - exact Ht.
  - constructor.
    + repeat split; simpl; try reflexivity. ring.
    + apply IH. exact Ht.
Qed.

(** When no stroke is refused the inline loop runs to its end and logs
    [arcLoopOps]. *)
Lemma arcLoop_ok (fontSize : Z) (startAngle radius : Q) :
  (forall k, strokeThrows E k = false) ->
  forall glyphs curr w,
    arcLoop E fontSize startAngle radius glyphs curr w =
    Ok tt (mkWorld (draws w) (strokes w + List.length glyphs) (font w)
                   (ctxFontSize w)
                   (ops w ++ arcLoopOps fontSize startAngle radius glyphs curr)).
Proof.
  intros Hno. induction glyphs as [|[ch wd] rest IH]; intros curr w.
  - destruct w. simpl. unfold ret. rewrite Nat.add_0_r, app_nil_r. reflexivity.
  - simpl. unfold bind, emit, strokeText. simpl. rewrite Hno.
    rewrite IH. simpl. f_equal. f_equal.
    + lia.
    + repeat rewrite <- app_assoc. reflexivity.
Qed.

(** A rotation followed by the log of the loop is the rotation of the
    whole arc, not a placement. *)
Lemma glyphsDrawn_frame (fontSize : Z) (startAngle radius : Q)
    (glyphs : list (jsstring * Q)) (curr a : Q) (pre : list Op) :
  forallb (fun o => negb (isRotate o)) pre = true ->
  Forall2 samePlacement
    (glyphsDrawn
       (pre ++ [Save; Translate (1400 / 2) a; Rotate curr]
            ++ arcLoopOps fontSize startAngle radius glyphs 0 ++ [Restore]))
    (placements startAngle radius glyphs 0).
Proof.
  intros Hpre. rewrite (glyphsDrawn_app_noRotate _ _ Hpre).
  change (Forall2 samePlacement
    (glyphsDrawn (Rotate curr
       :: arcLoopOps fontSize startAngle radius glyphs 0 ++ [Restore]))
    (placements startAngle radius glyphs 0)).
  assert (Hskip :
    glyphsDrawn (Rotate curr
       :: arcLoopOps fontSize startAngle radius glyphs 0 ++ [Restore])
    = glyphsDrawn (arcLoopOps fontSize startAngle radius glyphs 0 ++ [Restore])).
  { destruct glyphs as [|[ch w] rest]; reflexivity. }
  rewrite Hskip. apply glyphsDrawn_arcLoopOps. constructor.
Qed.

(** X7: The arc branch of [generateImage], when no stroke is refused: it
    returns, and the placements in the log are those of [arcLayout] for
    the spacing factor it drew. *)
Lemma arcBranch_draws_arcLayout (prompt : jsstring) (fontSize : Z)
    (rotateAngle desiredArc : Q) (w : World) :
  (forall k, strokeThrows E k = false) ->
  forallb (fun o => negb (isRotate o)) (ops w) = true ->
  let spacingFactor :=
    if Nat.ltb 20 (List.length prompt) then 1.14
    else random E (S (draws w)) * (1.18 - 1.06) + 1.06 in
  exists w',
    arcBranch E prompt fontSize rotateAngle desiredArc w = Ok tt w'
    /\ Forall2 samePlacement (glyphsDrawn (ops w'))
         (arcLayout E (font w) prompt spacingFactor desiredArc fontSize).
Proof.
  intros Hno Hpre spacingFactor. unfold arcBranch, rand.
  unfold bind at 1. unfold bind at 1. unfold Math_random at 1. unfold ret at 1.
  unfold bind at 1. subst spacingFactor.
  destruct (Nat.ltb 20 (List.length prompt)) eqn:Hlen.
  - unfold ret at 1. unfold bind, emit, getFont. cbn [draws strokes font ctxFontSize ops].
    rewrite (arcLoop_ok _ _ _ Hno). eexists. split; [reflexivity|].
    cbn [draws strokes font ctxFontSize ops]. repeat rewrite <- app_assoc.
    apply (glyphsDrawn_frame fontSize _ _ _ rotateAngle _ (ops w) Hpre).
  - unfold bind, emit, getFont, Math_random, ret.
    cbn [draws strokes font ctxFontSize ops].
    rewrite (arcLoop_ok _ _ _ Hno). eexists. split; [reflexivity|].
    cbn [draws strokes font ctxFontSize ops]. repeat rewrite <- app_assoc.
    apply (glyphsDrawn_frame fontSize _ _ _ rotateAngle _ (ops w) Hpre).
Qed.

End ArcRuns.

(* ------------------------------------------------------------------ *)
(** ** Sampling *)

Section Sampling.

Context (E : Env).

Lemma rand_run (min max : Q) (w : World) :
  rand E min max w =
  Ok (random E (draws w) * (max - min) + min)
     (mkWorld (S (draws w)) (strokes w) (font w) (ctxFontSize w) (ops w)).
Proof. reflexivity. Qed.

Lemma randInt_run (min max : Z) (w : World) :
  randInt E min max w =
  Ok (Qfloor (random E (draws w) * (inject_Z max + 1 - inject_Z min) + inject_Z min))
     (mkWorld (S (draws w)) (strokes w) (font w) (ctxFontSize w) (ops w)).
Proof. reflexivity. Qed.

(** A value of [rand(min, max)] lies in [[min, max]] when the random
    number lies in [[0, 1)]. *)
Lemma rand_bounds (u min max : Q) :
  0 <= u < 1 -> min <= max ->
  min <= u * (max - min) + min <= max.
Proof.
  intros [H0 H1] Hmm.
  assert (Hd : 0 <= max - min) by lra.
  pose proof (Qmult_le_0_compat u (max - min) H0 Hd) as Hlo.
  assert (Hhi : u * (max - min) <= 1 * (max - min)).
  { apply Qmult_le_compat_r; lra. }
  set (p := u * (max - min)) in *. clearbody p. lra.
Qed.

Lemma rand_below (u min max : Q) :
  0 <= u < 1 -> min < max -> u * (max - min) + min < max.
Proof.
  intros [H0 H1] Hmm.
  assert (Hd : 0 < max - min) by lra.
  assert (Hhi : u * (max - min) < 1 * (max - min)).
  { apply Qmult_lt_compat_r; lra. }
  set (p := u * (max - min)) in *. clearbody p. lra.
Qed.

(** A value of [randInt(min, max)] is an integer of [[min, max]]. *)
Lemma randInt_bounds (u : Q) (min max : Z) :
  0 <= u < 1 -> (min <= max)%Z ->
  (min <= Qfloor (u * (inject_Z max + 1 - inject_Z min) + inject_Z min) <= max)%Z.
Proof.
  intros Hu Hmm.
  assert (Hq : inject_Z min < inject_Z max + 1).
  { rewrite Zle_Qle in Hmm. lra. }
  pose proof (rand_bounds u (inject_Z min) (inject_Z max + 1) Hu
                (Qlt_le_weak _ _ Hq)) as [Hlo _].
  pose proof (rand_below u (inject_Z min) (inject_Z max + 1) Hu Hq) as Hhi.
  set (x := u * (inject_Z max + 1 - inject_Z min) + inject_Z min) in *.
  split.
  - rewrite <- (Qfloor_Z min). apply Qfloor_resp_le. exact Hlo.
  - pose proof (Qfloor_le x) as Hf.
    assert (Hlt : inject_Z (Qfloor x) < inject_Z (max + 1)).
    { rewrite inject_Z_plus. change (inject_Z 1) with 1. lra. }
    rewrite <- Zlt_Qlt in Hlt. lia.
Qed.

End Sampling.

(* ------------------------------------------------------------------ *)
(** ** The radius *)

Section Radius.

Context (E : Env) (f : Font).


End Radius.

(* ------------------------------------------------------------------ *)
(** ** The contrast policy *)

Section Contrast.

Context (E : Env).



(** C5 (as the code has it): the outline is black at alpha 0.45 over a
    background of average lightness above 55 and white at alpha 0.45
    otherwise; the shadow is white at alpha 0.25 when the average
    lightness is below 55 and black at alpha 0.35 otherwise, so that
    outline and shadow have the same colour except at an average lightness
    of exactly 55; the shadow blur is [0.12 * fontSize] rounded to the
    nearest integer. *)
Theorem outline_and_shadow (avgBgL : Q) (fontSize : Z) :
  strokeStyle avgBgL
    = (if Qlt_le_dec 55 avgBgL then Rgba 0 0 0 0.45 else Rgba 255 255 255 0.45)
  /\ shadowColor avgBgL
    = (if Qlt_le_dec avgBgL 55 then Rgba 255 255 255 0.25 else Rgba 0 0 0 0.35)
  /\ alphaOf (strokeStyle avgBgL) = 0.45
  /\ 0.25 <= alphaOf (shadowColor avgBgL) <= 0.35
  /\ (isBlack (shadowColor avgBgL) = isBlack (strokeStyle avgBgL)
      <-> ~ avgBgL == 55)
  /\ shadowBlur fontSize = Qfloor (inject_Z fontSize * 0.12 + (1 # 2))
  /\ inject_Z fontSize * 0.12 - (1 # 2) < inject_Z (shadowBlur fontSize)
     <= inject_Z fontSize * 0.12 + (1 # 2).
Proof.
  assert (Hs : strokeStyle avgBgL
    = (if Qlt_le_dec 55 avgBgL then Rgba 0 0 0 0.45 else Rgba 255 255 255 0.45)).
  { unfold strokeStyle. destruct (Qlt_le_dec 55 avgBgL) as [H|H].
    - apply JSFacts.gt_true in H. now rewrite H.
    - apply JSFacts.gt_false in H. now rewrite H. }
  assert (Hsh : shadowColor avgBgL
    = (if Qlt_le_dec avgBgL 55 then Rgba 255 255 255 0.25 else Rgba 0 0 0 0.35)).
  { unfold shadowColor. destruct (Qlt_le_dec avgBgL 55) as [H|H].
    - apply JSFacts.lt_true in H. now rewrite H.
    - apply JSFacts.lt_false in H. now rewrite H. }
  split; [exact Hs|]. split; [exact Hsh|].
  rewrite Hs, Hsh.
  split; [destruct (Qlt_le_dec 55 avgBgL); reflexivity|].
  split; [destruct (Qlt_le_dec avgBgL 55); simpl; split; lra|].
  split.
  - destruct (Qlt_le_dec avgBgL 55) as [H1|H1], (Qlt_le_dec 55 avgBgL) as [H2|H2];
      simpl; split; intros H; try lra; try discriminate; try reflexivity.
  - split; [reflexivity|]. unfold shadowBlur, JS.Math_round.
    pose proof (Qfloor_le (inject_Z fontSize * 0.12 + (1 # 2))) as Hlo.
    pose proof (Qlt_floor (inject_Z fontSize * 0.12 + (1 # 2))) as Hhi.
    rewrite inject_Z_plus in Hhi. change (inject_Z 1) with 1 in Hhi.
    split; lra.
Qed.

End Contrast.

(* ------------------------------------------------------------------ *)
(** ** The straight-mode word wrap *)

Section Wrap.

Context (E : Env) (f : Font).

Lemma truthy_false (s : jsstring) : truthy s = false -> s = [].
Proof. destruct s; [reflexivity | discriminate]. Qed.


(** The non-empty words of the lines built so far, of the current line
    and of the words to come. *)
Lemma wrapLoop_words :
  forall words lines currentLine,
    Forall noSpace words ->
    filter truthy (flat_map split_space (fst (wrapLoop E f words lines currentLine)))
    ++ filter truthy (split_space (snd (wrapLoop E f words lines currentLine)))
    = filter truthy (flat_map split_space lines)
      ++ filter truthy (split_space currentLine)
      ++ filter truthy words.
Proof.
  induction words as [|word rest IH]; intros lines cur Hns.
  - simpl. now rewrite app_nil_r.
  - inversion Hns as [|? ? Hw Hrest]; subst.
    pose proof (StrFacts.split_space_word word Hw) as Hsplit.
    simpl wrapLoop.
    match goal with
    | |- context [if (?a && ?b)%bool then _ else _] => destruct (a && b)%bool eqn:Hc
    end.
    + rewrite (IH _ _ Hrest), flat_map_app, filter_app, Hsplit.
      simpl flat_map. rewrite app_nil_r, <- app_assoc.
      f_equal. f_equal. simpl. destruct (truthy word); reflexivity.
    + rewrite (IH _ _ Hrest). f_equal.
      destruct (truthy cur) eqn:Ht.
      * rewrite StrFacts.split_space_join, filter_app, Hsplit, <- app_assoc.
        f_equal. simpl. destruct (truthy word); reflexivity.
      * apply truthy_false in Ht. subst cur. rewrite Hsplit. simpl.
        destruct (truthy word); reflexivity.
Qed.



End Wrap.

(* ------------------------------------------------------------------ *)
(** ** Determinism of the render *)

Section Determinism.

Context (E1 E2 : Env).
Hypothesis same_metrics : forall f t, measureText E1 f t = measureText E2 f t.
Hypothesis same_surface : forall k, strokeThrows E1 k = strokeThrows E2 k.




























End Determinism.


(* ------------------------------------------------------------------ *)
(** ** The trigger *)

(** C9: on a prompt that is empty or made of white space only,
    [generateImage] returns at once: the component state is the one it
    started from (canvas, loading flag, image URL, pending callbacks). *)
Theorem blank_prompt_is_ignored (st : AppState) :
  forallb isWhiteSpace (prompt st) = true ->
  generateImage st = st.
Proof.
  intros H. unfold generateImage.
  rewrite (StrFacts.trim_all_ws _ H). reflexivity.
Qed.

(** Any other prompt sets the loading flag, clears the image and
    registers the callback. *)
Lemma visible_prompt_is_scheduled (st : AppState) :
  forallb isWhiteSpace (prompt st) = false ->
  generateImage st
  = mkApp (prompt st) EmptyUrl true (world st) (timers st ++ [prompt st])
          (errors st).
Proof.
  intros H. unfold generateImage.
  destruct (trim (prompt st)) as [|c t] eqn:Ht; [|reflexivity].
  apply StrFacts.trim_nil_iff in Ht. congruence.
Qed.

(* ------------------------------------------------------------------ *)
(** ** Refused strokes *)

Section Strokes.

Context (E : Env).

Lemma textsFilled_app (a b : list Op) :
  textsFilled (a ++ b) = textsFilled a ++ textsFilled b.
Proof.
  induction a as [|o a IH]; simpl; [reflexivity|].
  destruct o; simpl; rewrite IH; reflexivity.
Qed.

(** The inline arc loop stops at the first refused stroke: the glyph at
    hand was filled, none of the following is. *)
Lemma arcLoop_stops_at_refusal (fontSize : Z) (startAngle radius : Q)
    (ch : jsstring) (wd : Q) (rest : list (jsstring * Q)) (curr : Q) (w : World) :
  strokeThrows E (strokes w) = true ->
  exists w',
    arcLoop E fontSize startAngle radius ((ch, wd) :: rest) curr w = Thrown w'
    /\ textsFilled (ops w') = textsFilled (ops w) ++ [ch].
Proof.
  intros Hthrow. simpl. unfold bind, emit, strokeText.
  cbn [draws strokes font ctxFontSize ops]. rewrite Hthrow.
  eexists. split; [reflexivity|]. cbn [ops].
  rewrite !textsFilled_app. simpl. now rewrite !app_nil_r.
Qed.

(** So does the loop over the wrapped lines. *)
Lemma lineLoop_stops_at_refusal (fontSize : Z) (startY lineHeight : Q)
    (line : jsstring) (rest : list jsstring) (i : nat) (w : World) :
  strokeThrows E (strokes w) = true ->
  exists w',
    lineLoop E fontSize startY lineHeight (line :: rest) i w = Thrown w'
    /\ textsFilled (ops w') = textsFilled (ops w) ++ [line].
Proof.
  intros Hthrow. simpl. unfold bind, emit, strokeText.
  cbn [draws strokes font ctxFontSize ops]. rewrite Hthrow.
  eexists. split; [reflexivity|]. cbn [ops].
  rewrite !textsFilled_app. simpl. now rewrite !app_nil_r.
Qed.

(** The loop of [drawTextOnArc] reaches its end whatever the surface
    refuses, and fills every glyph. *)
Lemma drawArcLoop_fills_all (startAngle radius : Q) :
  forall glyphs curr w,
  exists w',
    drawArcLoop E startAngle radius glyphs curr w = Ok tt w'
    /\ textsFilled (ops w') = textsFilled (ops w) ++ List.map fst glyphs
    /\ font w' = font w.
Proof.
  induction glyphs as [|[ch wd] rest IH]; intros curr w.
  - exists w. simpl. rewrite app_nil_r. repeat split.
  - simpl. unfold bind, emit, getCtxFontSize, tryCatch, strokeText.
    cbn [draws strokes font ctxFontSize ops].
    destruct (strokeThrows E (strokes w)).
    + match goal with
      | |- context [drawArcLoop E _ _ rest ?c ?w1] =>
          destruct (IH c w1) as [w' [Hrun [Htexts Hfont]]]
      end.
      exists w'. split; [exact Hrun|]. split; [|exact Hfont].
      rewrite Htexts. cbn [ops]. rewrite !textsFilled_app. simpl.
      rewrite !app_nil_r, <- app_assoc. reflexivity.
    + match goal with
      | |- context [drawArcLoop E _ _ rest ?c ?w1] =>
          destruct (IH c w1) as [w' [Hrun [Htexts Hfont]]]
      end.
      exists w'. split; [exact Hrun|]. split; [|exact Hfont].
      rewrite Htexts. cbn [ops]. rewrite !textsFilled_app. simpl.
      rewrite !app_nil_r, <- app_assoc. reflexivity.
Qed.

Lemma glyphsOf_chars (f : Font) (text : jsstring) (sf : Q) :
  List.map fst (glyphsOf E f text sf) = split_chars text.
Proof.
  unfold glyphsOf, adjWidthsOf, split_chars.
  induction text as [|c text IH]; simpl; [reflexivity | now rewrite IH].
Qed.

(** X12: [drawTextOnArc] never throws: with a total width of zero or less it
    fills the whole text once, at the centre; otherwise it fills every
    character, whichever strokes the surface refuses. *)
Lemma drawTextOnArc_fills_all (text : jsstring) (cx cy desiredArc sf : Q)
    (w : World) :
  exists w',
    drawTextOnArc E text cx cy desiredArc sf w = Ok tt w'
    /\ textsFilled (ops w')
       = textsFilled (ops w)
         ++ (if JS.le (sumOf (adjWidthsOf E (font w) text sf)) 0
             then [text] else split_chars text)
    /\ (JS.le (sumOf (adjWidthsOf E (font w) text sf)) 0 = true ->
        ops w' = ops w ++ [FillText text cx cy]).
Proof.
  unfold drawTextOnArc. unfold bind at 1. unfold getFont. cbv zeta.
  destruct (JS.le (sumOf (adjWidthsOf E (font w) text sf)) 0) eqn:Hle.
  - eexists. split; [reflexivity|]. cbn [ops]. split; [|reflexivity].
    rewrite textsFilled_app. reflexivity.
  - unfold bind, emit. cbn [draws strokes font ctxFontSize ops].
    match goal with
    | |- context [drawArcLoop E ?s ?r ?g ?c ?w1] =>
        destruct (drawArcLoop_fills_all s r g c w1) as [w' [Hrun [Htexts Hfont]]]
    end.
    rewrite Hrun. eexists. split; [reflexivity|]. cbn [ops].
    split; [|discriminate].
    rewrite textsFilled_app, Htexts. cbn [ops].
    rewrite !textsFilled_app. simpl. rewrite !app_nil_r.
    change (combine (split_chars text) (adjWidthsOf E (font w) text sf))
      with (glyphsOf E (font w) text sf).
    now rewrite glyphsOf_chars.
Qed.

End Strokes.

(* ------------------------------------------------------------------ *)
(** ** The program on sample inputs *)

(** Closed comparisons of rationals, by computation. *)
Ltac qcompute := vm_compute; first [reflexivity | discriminate | intro; discriminate].


Lemma envPlain_random_unit (i : nat) : 0 <= random envPlain i < 1.
Proof. simpl. split; [discriminate | reflexivity]. Qed.



(** C5, where it fails: over a background of average lightness 60 the
    outline is black and the shadow is black too, not of the opposite
    colour; with a font size of 84 the blur is 10, not 10.08. *)
Lemma shadow_has_the_colour_of_the_outline :
  isBlack (strokeStyle 60) = true
  /\ isBlack (shadowColor 60) = true
  /\ isBlack (shadowColor 60) <> negb (isBlack (strokeStyle 60))
  /\ shadowBlur 84 = 10%Z
  /\ ~ inject_Z (shadowBlur 84) == 0.12 * 84.
Proof.
  split; [reflexivity|]. split; [reflexivity|]. split; [vm_compute; discriminate|].
  split; [reflexivity|]. qcompute.
Qed.

(** C2, at the failing input: the prompt is the zero-width space, which
    [trim] keeps, and every glyph measures zero.  The total width is zero,
    yet the render goes through the arc loop: it rotates by minus half the
    arc span and pushes the glyph out to the radius floor, where
    [drawTextOnArc] fills the text once at the centre. *)
Theorem zero_width_prompt_goes_round_the_arc :
  let r := tryBlock envZeroWidth [ZWSP] world0 in
  let f := font (worldOf r) in
  let desiredArc := (1 # 2) * (JS.Math_PI * 0.95 - JS.Math_PI * 0.55)
                    + JS.Math_PI * 0.55 in
  generateImage (app0 [ZWSP])
    = mkApp [ZWSP] EmptyUrl true world0 [[ZWSP]] 0
  /\ sumOf (adjWidthsOf envZeroWidth f [ZWSP] 1.12) == 0
  /\ Forall2 samePlacement (glyphsDrawn (ops (worldOf r)))
       [mkPlacement [ZWSP] (- desiredArc / 2) (126 * 1.1)]
  /\ textsFilled (ops (worldOf r)) = [[ZWSP]]
  /\ drawTextOnArc envZeroWidth [ZWSP] 700 450 desiredArc 1.12 world0
     = Ok tt (mkWorld 0 0 defaultFont None [FillText [ZWSP] 700 450]).
Proof.
  cbv zeta. split; [reflexivity|]. split; [qcompute|].
  split; [|split; [vm_compute; reflexivity | vm_compute; reflexivity]].
  vm_compute. constructor; [|constructor].
  vm_compute. repeat split; reflexivity.
Qed.

(** C8, at the failing input: the surface refuses the first
    [strokeText].  In arc mode, on the prompt AB, the render throws after
    the first glyph: B is never filled, no image is exported and the error
    is logged.  In straight mode, on the prompt "AA BB" wrapped into two
    lines, the second line is never filled.  [drawTextOnArc], on the same
    surface, fills both glyphs. *)
Theorem refused_stroke_aborts_the_render :
  let arc := tryBlock envStrokeFails (lit "AB") world0 in
  let straight := tryBlock envStrokeFailsStraight (lit "AA BB") world0 in
  arc = Thrown (worldOf arc)
  /\ textsFilled (ops (worldOf arc)) = [lit "A"]
  /\ timeoutCallback envStrokeFails (lit "AB")
       (mkApp (lit "AB") EmptyUrl true world0 [] 0)
     = mkApp (lit "AB") EmptyUrl false (worldOf arc) [] 1
  /\ wrapLines envStrokeFailsStraight (font (worldOf straight)) (lit "AA BB")
     = [lit "AA"; lit "BB"]
  /\ straight = Thrown (worldOf straight)
  /\ textsFilled (ops (worldOf straight)) = [lit "AA"]
  /\ (exists w,
        drawTextOnArc envStrokeFails (lit "AB") 700 450 2 1.1 world0 = Ok tt w
        /\ textsFilled (ops w) = [lit "A"; lit "B"]).
Proof.
  cbv zeta.
  split; [vm_compute; reflexivity|]. split; [vm_compute; reflexivity|].
  split; [vm_compute; reflexivity|]. split; [vm_compute; reflexivity|].
  split; [vm_compute; reflexivity|]. split; [vm_compute; reflexivity|].
  eexists. split; vm_compute; reflexivity.
Qed.

(** The theorems above, used on sample inputs. *)




Lemma outline_and_shadow_witness :
  ~ 60 == 55 /\ isBlack (shadowColor 60) = isBlack (strokeStyle 60).
Proof.
  pose proof (outline_and_shadow 60 84) as [_ [_ [_ [_ [H _]]]]].
  assert (Hne : ~ 60 == 55) by (intro Heq; discriminate Heq).
  split; [exact Hne | apply H; exact Hne].
Defined.



Lemma blank_prompt_is_ignored_witness :
  generateImage (app0 (lit "   ")) = app0 (lit "   ").
Proof.
  apply (blank_prompt_is_ignored (app0 (lit "   "))). reflexivity.
Defined.


(* ------------------------------------------------------------------ *)
(** ** Ranges of the sampled parameters *)

Section Ranges.

Context (E : Env).





End Ranges.

(* ------------------------------------------------------------------ *)
(** ** Hue and saturation of the text colours *)

Section TextColours.

Context (E : Env).




End TextColours.

(* ------------------------------------------------------------------ *)
(** ** The stops of the text gradient, the font and its size *)

Section Palette.

Context (E : Env).

Lemma stopDivisor_pos (len : nat) : 0 < stopDivisor len.
Proof.
  unfold stopDivisor. destruct (Nat.eqb (len - 1) 0) eqn:He; [reflexivity|].
  apply Nat.eqb_neq in He.
  assert (H : inject_Z 2 <= inject_Z (Z.of_nat len)).
  { rewrite <- Zle_Qle. lia. }
  change (inject_Z 2) with 2 in H. lra.
Qed.

Lemma gradStops_offsets (len : nat) (cs : list Color.t) :
  forall i,
    List.map fst (gradStops len cs i)
    = List.map (fun j => inject_Z (Z.of_nat j) / stopDivisor len)
               (seq i (List.length cs)).
Proof.
  induction cs as [|c cs IH]; intros i; simpl; [reflexivity|].
  rewrite IH. reflexivity.
Qed.

Lemma gradStops_colours (len : nat) (cs : list Color.t) :
  forall i, List.map snd (gradStops len cs i) = List.map colorObjToCss cs.
Proof.
  induction cs as [|c cs IH]; intros i; simpl; [reflexivity|].
  now rewrite IH.
Qed.

Lemma offset_le_one (len j : nat) :
  (j < len)%nat -> 0 <= inject_Z (Z.of_nat j) / stopDivisor len <= 1.
Proof.
  intros Hj. pose proof (stopDivisor_pos len) as Hd.
  assert (H0 : 0 <= inject_Z (Z.of_nat j)).
  { change 0 with (inject_Z 0). rewrite <- Zle_Qle. lia. }
  split; [apply Qdiv_nonneg; assumption|].
  apply Qle_shift_div_r; [exact Hd|]. rewrite Qmult_1_l.
  unfold stopDivisor. destruct (Nat.eqb (len - 1) 0) eqn:He.
  - apply Nat.eqb_eq in He. assert (j = 0)%nat by lia. subst j. discriminate.
  - assert (H : inject_Z (Z.of_nat j) <= inject_Z (Z.of_nat len - 1)).
    { rewrite <- Zle_Qle. lia. }
    unfold Z.sub in H. rewrite inject_Z_plus in H.
    change (inject_Z (- (1))) with (-1) in H. lra.
Qed.

Lemma offsets_increasing (d : Q) (n : nat) :
  0 < d ->
  forall i,
    StronglySorted Qlt
      (List.map (fun j => inject_Z (Z.of_nat j) / d) (seq i n)).
Proof.
  intros Hd. induction n as [|n IH]; intros i; simpl; constructor.
  - apply IH.
  - apply Forall_forall. intros x Hx.
    apply in_map_iff in Hx as [j [<- Hj]]. apply in_seq in Hj.
    unfold Qdiv. apply Qmult_lt_compat_r.
    + apply Qinv_lt_0_compat. exact Hd.
    + rewrite <- Zlt_Qlt. lia.
Qed.

(** X4: The text gradient has one stop per colour, in order; the offsets lie
    in [[0, 1]], which [addColorStop] requires, and increase strictly;
    with one colour the offset is 0 (no division by zero), with more the
    last offset is 1. *)
Theorem gradient_stops_span_unit_interval (cs : list Color.t) :
  let stops := gradStops (List.length cs) cs 0 in
  List.map snd stops = List.map colorObjToCss cs
  /\ Forall (fun p => 0 <= fst p <= 1) stops
  /\ StronglySorted Qlt (List.map fst stops)
  /\ (forall c, cs = [c] -> stops = [(0 / 1, colorObjToCss c)])
  /\ ((2 <= List.length cs)%nat ->
      exists o, nth_error (List.map fst stops) (List.length cs - 1) = Some o
                /\ o == 1).
Proof.
  cbv zeta. split; [apply gradStops_colours|]. split; [|split; [|split]].
  - apply Forall_map with (f := fst) (P := fun o => 0 <= o <= 1).
    rewrite gradStops_offsets. apply Forall_forall. intros x Hx.
    apply in_map_iff in Hx as [j [<- Hj]]. apply in_seq in Hj.
    apply offset_le_one. lia.
  - rewrite gradStops_offsets. apply offsets_increasing, stopDivisor_pos.
  - intros c ->. reflexivity.
  - intros Hlen. rewrite gradStops_offsets.
    eexists. split.
    + apply map_nth_error. rewrite nth_error_nth' with (d := 0%nat).
      * rewrite seq_nth by lia. reflexivity.
      * rewrite length_seq. lia.
    + simpl. unfold stopDivisor.
      destruct (Nat.eqb (List.length cs - 1) 0) eqn:He.
      * apply Nat.eqb_eq in He. lia.
      * rewrite Nat2Z.inj_sub by lia. unfold Z.sub. rewrite inject_Z_plus.
        change (inject_Z (- Z.of_nat 1)) with (-1).
        assert (H : inject_Z 2 <= inject_Z (Z.of_nat (List.length cs))).
        { rewrite <- Zle_Qle. lia. }
        change (inject_Z 2) with 2 in H. field. lra.
Qed.


(** X6: The font family [fonts[randInt(0, fonts.length - 1)]] is always one
    of the eight of the catalogue, never [undefined]. *)
Theorem font_is_from_catalogue (w : World) :
  0 <= random E (draws w) < 1 ->
  exists i : Z,
    randInt E 0 (Z.of_nat (List.length fonts) - 1) w = Ok i (advance 1 w)
    /\ (0 <= i <= 7)%Z
    /\ In (nth (Z.to_nat i) fonts []) fonts
    /\ nth (Z.to_nat i) fonts [] <> [].
Proof.
  intros Hu. rewrite randInt_run.
  pose proof (randInt_bounds _ 0 (Z.of_nat (List.length fonts) - 1) Hu
                ltac:(simpl; lia)) as Hi.
  match type of Hi with (_ <= ?x <= _)%Z => set (i := x) in * end.
  exists i. split; [reflexivity|]. simpl in Hi. split; [exact Hi|].
  assert (Hn : (Z.to_nat i < 8)%nat) by lia.
  split.
  - apply nth_In. exact Hn.
  - set (k := Z.to_nat i) in *. clearbody k.
    do 8 (destruct k as [|k]; [vm_compute; discriminate|]). lia.
Qed.

End Palette.

(* ------------------------------------------------------------------ *)
(** ** More on the word wrap *)

Section WrapMore.

Context (E : Env) (f : Font).

Lemma wrapLoop_lines_truthy :
  forall words lines currentLine,
    Forall (fun l => truthy l = true) lines ->
    Forall (fun l => truthy l = true) (fst (wrapLoop E f words lines currentLine)).
Proof.
  induction words as [|word rest IH]; intros lines cur Hl; simpl; [exact Hl|].
  match goal with
  | |- context [if (?a && ?b)%bool then _ else _] => destruct (a && b)%bool eqn:Hc
  end.
  - apply andb_true_iff in Hc as [_ Ht]. apply IH.
    apply Forall_app. split; [exact Hl|]. constructor; [exact Ht | constructor].
  - apply IH. exact Hl.
Qed.

Lemma split_space_has_word (s : jsstring) :
  (exists c, In c s /\ c <> SPACE) -> filter truthy (split_space s) <> [].
Proof.
  induction s as [|c s IH]; intros [x [Hin Hx]]; [destruct Hin|].
  simpl. destruct (N.eqb c SPACE) eqn:He.
  - apply N.eqb_eq in He. simpl. apply IH. exists x. split; [|exact Hx].
    destruct Hin as [->|Hin]; [congruence | exact Hin].
  - pose proof (StrFacts.split_space_nonnil s) as Hn.
    destruct (split_space s) as [|w ws]; [congruence|]. simpl. discriminate.
Qed.

Lemma visible_has_non_space (s : jsstring) :
  trim s <> [] -> exists c, In c s /\ c <> SPACE.
Proof.
  intros Ht.
  assert (Hw : forallb isWhiteSpace s = false).
  { destruct (forallb isWhiteSpace s) eqn:Hf; [|reflexivity].
    apply StrFacts.trim_nil_iff in Hf. congruence. }
  clear Ht. induction s as [|c s IH]; [discriminate|].
  simpl in Hw. apply andb_false_iff in Hw as [Hc|Hs].
  - exists c. split; [left; reflexivity|]. intros ->. discriminate.
  - destruct (IH Hs) as [x [Hin Hx]]. exists x. split; [right; exact Hin | exact Hx].
Qed.

Lemma wrapLines_truthy (prompt : jsstring) :
  Forall (fun l => truthy l = true) (wrapLines E f prompt).
Proof.
  unfold wrapLines.
  pose proof (wrapLoop_lines_truthy (split_space prompt) [] [] (Forall_nil _)) as Hl.
  destruct (wrapLoop E f (split_space prompt) [] []) as [lines cur].
  simpl in Hl. destruct (truthy cur) eqn:Ht; [|exact Hl].
  apply Forall_app. split; [exact Hl|]. constructor; [exact Ht | constructor].
Qed.

Lemma wrapLines_of_visible (prompt : jsstring) :
  trim prompt <> [] -> wrapLines E f prompt <> [].
Proof.
  intros Hvis. unfold wrapLines.
  pose proof (wrapLoop_words E f (split_space prompt) [] []
                (StrFacts.split_space_noSpace prompt)) as Hw.
  destruct (wrapLoop E f (split_space prompt) [] []) as [lines cur].
  simpl in Hw.
  pose proof (split_space_has_word prompt (visible_has_non_space prompt Hvis)) as Hne.
  rewrite <- Hw in Hne.
  destruct (truthy cur) eqn:Ht.
  - intros Habs. apply app_eq_nil in Habs as [_ Habs]. discriminate.
  - apply truthy_false in Ht. subst cur. simpl in Hne.
    rewrite app_nil_r in Hne. intros ->. apply Hne. reflexivity.
Qed.

(** X10: The wrap never commits an empty line, and a prompt that passes the
    test of [generateImage] (not empty after [trim]) gives at least one
    line. *)
Theorem wrap_lines_are_not_empty (prompt : jsstring) :
  Forall (fun l => truthy l = true) (wrapLines E f prompt)
  /\ (trim prompt <> [] -> wrapLines E f prompt <> []).
Proof.
  split; [apply wrapLines_truthy | apply wrapLines_of_visible].
Qed.

Lemma joinSpace_snoc (done : list jsstring) (word : jsstring) :
  done <> [] -> joinSpace (done ++ [word]) = joinSpace done ++ SPACE :: word.
Proof.
  induction done as [|p rest IH]; intros Hne; [congruence|].
  destruct rest as [|q rest]; [reflexivity|].
  change (p ++ SPACE :: joinSpace ((q :: rest) ++ [word])
          = (p ++ SPACE :: joinSpace (q :: rest)) ++ SPACE :: word).
  rewrite IH by discriminate. rewrite <- app_assoc. reflexivity.
Qed.

Lemma joinSpace_truthy (done : list jsstring) :
  Forall (fun w => truthy w = true) done ->
  truthy (joinSpace done) = match done with [] => false | _ => true end.
Proof.
  intros H. destruct done as [|p rest]; [reflexivity|].
  inversion H as [|? ? Hp _]; subst.
  destruct rest; simpl; destruct p; try discriminate; reflexivity.
Qed.

(** Joining the pieces of a split gives the string back. *)
Lemma joinSpace_split_space (s : jsstring) : joinSpace (split_space s) = s.
Proof.
  induction s as [|c s IH]; [reflexivity|].
  simpl. pose proof (StrFacts.split_space_nonnil s) as Hn.
  destruct (N.eqb c SPACE) eqn:He.
  - apply N.eqb_eq in He. subst c.
    destruct (split_space s) as [|w ws]; [congruence|].
    change (joinSpace ([] :: w :: ws)) with (SPACE :: joinSpace (w :: ws)).
    now rewrite IH.
  - destruct (split_space s) as [|w ws]; [congruence|].
    destruct ws as [|w' ws].
    + simpl in *. now rewrite IH.
    + change (joinSpace ((c :: w) :: w' :: ws))
        with (c :: (w ++ SPACE :: joinSpace (w' :: ws))).
      change (joinSpace (w :: w' :: ws))
        with (w ++ SPACE :: joinSpace (w' :: ws)) in IH.
      now rewrite IH.
Qed.

Lemma wrapLoop_all_fit (all : list jsstring) :
  Forall (fun w => truthy w = true) all ->
  (forall k, measureText E f (joinSpace (firstn k all)) <= maxWidth) ->
  forall words done lines,
    all = done ++ words ->
    wrapLoop E f words lines (joinSpace done) = (lines, joinSpace all).
Proof.
  intros Hall Hfit. induction words as [|word rest IH]; intros done lines Heq.
  - rewrite app_nil_r in Heq. subst. reflexivity.
  - simpl.
    assert (Hdone : Forall (fun w => truthy w = true) done).
    { rewrite Heq in Hall. apply Forall_app in Hall. tauto. }
    assert (Htest : (if truthy (joinSpace done)
                     then joinSpace done ++ SPACE :: word else word)
                    = joinSpace (done ++ [word])).
    { rewrite (joinSpace_truthy done Hdone).
      destruct done as [|p ps]; [reflexivity|].
      symmetry. apply joinSpace_snoc. discriminate. }
    rewrite Htest.
    assert (Hk : joinSpace (done ++ [word])
                 = joinSpace (firstn (List.length done + 1) all)).
    { rewrite Heq. rewrite firstn_app.
      rewrite firstn_all2 by lia.
      replace (List.length done + 1 - List.length done)%nat with 1%nat by lia.
      reflexivity. }
    assert (Hg : JS.gt (measureText E f (joinSpace (done ++ [word]))) maxWidth
                 = false).
    { apply JSFacts.gt_false. rewrite Hk. apply Hfit. }
    rewrite Hg. simpl. apply IH. rewrite Heq, <- app_assoc. reflexivity.
Qed.

(** X11: A prompt without empty word (no leading, trailing or repeated
    space) whose words, joined from the first to any of them, fit in
    [maxWidth], is laid out on one line, the prompt itself. *)
Theorem fitting_prompt_is_one_line (prompt : jsstring) :
  prompt <> [] ->
  forallb truthy (split_space prompt) = true ->
  (forall k,
      measureText E f (joinSpace (firstn k (split_space prompt))) <= maxWidth) ->
  wrapLines E f prompt = [prompt].
Proof.
  intros Hne Hwords Hfit. unfold wrapLines.
  assert (Hall : Forall (fun w => truthy w = true) (split_space prompt)).
  { apply Forall_forall. apply forallb_forall. exact Hwords. }
  pose proof (wrapLoop_all_fit (split_space prompt) Hall Hfit
                (split_space prompt) [] [] eq_refl) as Hrun.
  change (joinSpace []) with (@nil char) in Hrun.
  rewrite Hrun, joinSpace_split_space.
  destruct prompt; [congruence | reflexivity].
Qed.

End WrapMore.

(* ------------------------------------------------------------------ *)
(** ** What the straight branch draws *)

Section StraightRuns.

Context (E : Env).

Lemma fillsOf_app (a b : list Op) : fillsOf (a ++ b) = fillsOf a ++ fillsOf b.
Proof.
  induction a as [|o a IH]; simpl; [reflexivity|].
  destruct o; simpl; rewrite IH; reflexivity.
Qed.

Lemma lineLoop_ok (fontSize : Z) (startY lineHeight : Q) :
  (forall k, strokeThrows E k = false) ->
  forall lines i w,
    lineLoop E fontSize startY lineHeight lines i w =
    Ok tt (mkWorld (draws w) (strokes w + List.length lines) (font w)
                   (ctxFontSize w)
                   (ops w ++ lineLoopOps fontSize startY lineHeight lines i)).
Proof.
  intros Hno. induction lines as [|line rest IH]; intros i w.
  - destruct w. simpl. unfold ret. rewrite Nat.add_0_r, app_nil_r. reflexivity.
  - simpl. unfold bind, emit, strokeText. simpl. rewrite Hno.
    rewrite IH. simpl. f_equal. f_equal.
    + lia.
    + repeat rewrite <- app_assoc. reflexivity.
Qed.

Lemma fillsOf_lineLoopOps (fontSize : Z) (startY lineHeight : Q) :
  forall lines i,
    fillsOf (lineLoopOps fontSize startY lineHeight lines i)
    = combine lines (lineOffsets startY lineHeight (List.length lines) i).
Proof.
  induction lines as [|line rest IH]; intros i; simpl; [reflexivity|].
  now rewrite IH.
Qed.

Lemma lineOffsets_nth (startY lineHeight : Q) :
  forall n i0 i y,
    nth_error (lineOffsets startY lineHeight n i0) i = Some y ->
    (i < n)%nat /\ y = startY + inject_Z (Z.of_nat (i0 + i)) * lineHeight.
Proof.
  induction n as [|n IH]; intros i0 i y H.
  - destruct i; discriminate.
  - destruct i as [|i]; simpl in H.
    + injection H as <-. rewrite Nat.add_0_r. split; [lia | reflexivity].
    + apply IH in H as [Hi ->]. split; [lia|].
      replace (S i0 + i)%nat with (i0 + S i)%nat by lia. reflexivity.
Qed.

(** X9: The straight branch, when no stroke is refused, returns; it fills
    the wrapped lines in order, one per ordinate; the ordinate of line [i]
    of [n] is [(i - (n - 1) / 2) * lineHeight] with a line height of
    [fontSize * 1.12], so that the block is centred: the ordinates of
    lines [i] and [n - 1 - i] are opposite. *)
Theorem straightBranch_draws_centred_lines (prompt : jsstring) (fontSize : Z)
    (rotateAngle : Q) (w : World) :
  (forall k, strokeThrows E k = false) ->
  let lines := wrapLines E (font w) prompt in
  let n := List.length lines in
  let lineHeight := inject_Z fontSize * 1.12 in
  let offsets := lineOffsets (startYOf n lineHeight) lineHeight n 0 in
  exists w',
    straightBranch E prompt fontSize rotateAngle w = Ok tt w'
    /\ fillsOf (ops w') = fillsOf (ops w) ++ combine lines offsets
    /\ List.length offsets = n
    /\ (forall i y,
          nth_error offsets i = Some y ->
          y == (inject_Z (Z.of_nat i) - (inject_Z (Z.of_nat n) - 1) / 2)
               * lineHeight)
    /\ (forall i j yi yj,
          (i + j = n - 1)%nat ->
          nth_error offsets i = Some yi -> nth_error offsets j = Some yj ->
          yi + yj == 0).
Proof.
  intros Hno lines n lineHeight offsets.
  assert (Hform : forall i y,
            nth_error offsets i = Some y ->
            (i < n)%nat
            /\ y == (inject_Z (Z.of_nat i) - (inject_Z (Z.of_nat n) - 1) / 2)
                    * lineHeight).
  { intros i y Hy. apply lineOffsets_nth in Hy as [Hi ->]. split; [exact Hi|].
    unfold startYOf. simpl Nat.add.
    generalize (inject_Z (Z.of_nat n)) (inject_Z (Z.of_nat i)) lineHeight.
    intros a b h. unfold Qdiv. change (/ 2) with (1 # 2). ring. }
  unfold straightBranch. cbv zeta. unfold bind, emit, getFont.
  cbn [draws strokes font ctxFontSize ops].
  rewrite (lineLoop_ok _ _ _ Hno). eexists. split; [reflexivity|].
  cbn [ops]. split; [|split; [|split]].
  - repeat rewrite <- app_assoc. rewrite !fillsOf_app, fillsOf_lineLoopOps.
    simpl. rewrite app_nil_r. reflexivity.
  - unfold offsets. clear. generalize 0%nat. generalize (startYOf n lineHeight).
    induction n as [|n IH]; intros s i; simpl; [reflexivity | now rewrite IH].
  - intros i y Hy. apply Hform. exact Hy.
  - intros i j yi yj Hij Hi Hj.
    apply Hform in Hi as [Hi1 ->]. apply Hform in Hj as [Hj1 ->].
    assert (Hsum : inject_Z (Z.of_nat i) + inject_Z (Z.of_nat j)
                   == inject_Z (Z.of_nat n) - 1).
    { rewrite <- inject_Z_plus.
      replace (Z.of_nat i + Z.of_nat j)%Z with (Z.of_nat n - 1)%Z by lia.
      unfold Z.sub. rewrite inject_Z_plus. reflexivity. }
    revert Hsum.
    generalize (inject_Z (Z.of_nat n)) (inject_Z (Z.of_nat i))
               (inject_Z (Z.of_nat j)) lineHeight.
    intros c a b h Hsum.
    assert (Ha : a == c - 1 - b) by lra. rewrite Ha. unfold Qdiv.
    change (/ 2) with (1 # 2). ring.
Qed.

End StraightRuns.

(* ------------------------------------------------------------------ *)
(** ** Saved and restored drawing states *)

Section Balance.

Context (E : Env).

Lemma depthAfter_app (a b : list Op) :
  forall d,
    depthAfter d (a ++ b)
    = match depthAfter d a with
      | Some d' => depthAfter d' b
      | None => None
      end.
Proof.
  induction a as [|o a IH]; intros d; simpl; [reflexivity|].
  destruct o; try apply IH. destruct d; [reflexivity | apply IH].
Qed.

Lemma depthAfter_arcLoopOps (fontSize : Z) (startAngle radius : Q) :
  forall glyphs curr d,
    depthAfter d (arcLoopOps fontSize startAngle radius glyphs curr) = Some d.
Proof.
  induction glyphs as [|[ch w] rest IH]; intros curr d; simpl; [reflexivity|].
  apply IH.
Qed.

Lemma depthAfter_lineLoopOps (fontSize : Z) (startY lineHeight : Q) :
  forall lines i d,
    depthAfter d (lineLoopOps fontSize startY lineHeight lines i) = Some d.
Proof.
  induction lines as [|line rest IH]; intros i d; simpl; [reflexivity|].
  apply IH.
Qed.

Lemma drawArcLoop_balanced (startAngle radius : Q) :
  forall glyphs curr w,
  exists w' added,
    drawArcLoop E startAngle radius glyphs curr w = Ok tt w'
    /\ ops w' = ops w ++ added
    /\ (forall d, depthAfter d added = Some d).
Proof.
  induction glyphs as [|[ch wd] rest IH]; intros curr w.
  - exists w, []. simpl. rewrite app_nil_r. repeat split.
  - simpl. unfold bind, emit, getCtxFontSize, tryCatch, strokeText.
    cbn [draws strokes font ctxFontSize ops].
    destruct (strokeThrows E (strokes w)).
    + match goal with
      | |- context [drawArcLoop E _ _ rest ?c ?w1] =>
          destruct (IH c w1) as [w' [added [Hrun [Hops Hbal]]]]
      end.
      cbn [ops] in Hops. repeat rewrite <- app_assoc in Hops.
      exists w'. eexists. split; [exact Hrun|]. split; [exact Hops|].
      intros d. simpl. apply Hbal.
    + match goal with
      | |- context [drawArcLoop E _ _ rest ?c ?w1] =>
          destruct (IH c w1) as [w' [added [Hrun [Hops Hbal]]]]
      end.
      cbn [ops] in Hops. repeat rewrite <- app_assoc in Hops.
      exists w'. eexists. split; [exact Hrun|]. split; [exact Hops|].
      intros d. simpl. apply Hbal.
Qed.

(** X13: [drawTextOnArc] only adds to the drawing log and gives back the
    stack of saved states as it found it, whichever strokes the surface
    refuses: every [save] has its [restore]. *)
Theorem drawTextOnArc_restores_what_it_saves (text : jsstring)
    (cx cy desiredArc sf : Q) (w : World) :
  exists w' added,
    drawTextOnArc E text cx cy desiredArc sf w = Ok tt w'
    /\ ops w' = ops w ++ added
    /\ (forall d, depthAfter d added = Some d).
Proof.
  unfold drawTextOnArc. unfold bind at 1. unfold getFont. cbv zeta.
  destruct (JS.le (sumOf (adjWidthsOf E (font w) text sf)) 0).
  - eexists. eexists. split; [reflexivity|]. cbn [ops]. split; [reflexivity|].
    intros d. reflexivity.
  - unfold bind, emit. cbn [draws strokes font ctxFontSize ops].
    match goal with
    | |- context [drawArcLoop E ?s ?r ?g ?c ?w1] =>
        destruct (drawArcLoop_balanced s r g c w1) as [w' [added [Hrun [Hops Hbal]]]]
    end.
    rewrite Hrun. cbn [ops] in Hops. eexists. eexists.
    split; [reflexivity|]. cbn [ops]. rewrite Hops.
    repeat rewrite <- app_assoc. split; [reflexivity|].
    intros d. simpl. rewrite depthAfter_app, Hbal. reflexivity.
Qed.

(** The two branches of [generateImage], when no stroke is refused,
    return, only add to the drawing log, and restore every state they
    save. *)
Theorem branches_restore_what_they_save (prompt : jsstring) (fontSize : Z)
    (rotateAngle desiredArc : Q) (w : World) :
  (forall k, strokeThrows E k = false) ->
  (exists w' added,
      arcBranch E prompt fontSize rotateAngle desiredArc w = Ok tt w'
      /\ ops w' = ops w ++ added
      /\ (forall d, depthAfter d added = Some d))
  /\ (exists w' added,
        straightBranch E prompt fontSize rotateAngle w = Ok tt w'
        /\ ops w' = ops w ++ added
        /\ (forall d, depthAfter d added = Some d)).
Proof.
  intros Hno. split.
  - unfold arcBranch, rand. cbv zeta.
    unfold bind at 1. unfold bind at 1. unfold Math_random at 1. unfold ret at 1.
    unfold bind at 1.
    destruct (Nat.ltb 20 (List.length prompt)).
    + unfold ret at 1. unfold bind, emit, getFont.
      cbn [draws strokes font ctxFontSize ops].
      rewrite (arcLoop_ok _ _ _ _ Hno). eexists. eexists.
      split; [reflexivity|]. cbn [ops]. repeat rewrite <- app_assoc.
      split; [reflexivity|]. intros d. simpl.
      rewrite depthAfter_app, depthAfter_arcLoopOps. reflexivity.
    + unfold bind, emit, getFont, Math_random, ret.
      cbn [draws strokes font ctxFontSize ops].
      rewrite (arcLoop_ok _ _ _ _ Hno). eexists. eexists.
      split; [reflexivity|]. cbn [ops]. repeat rewrite <- app_assoc.
      split; [reflexivity|]. intros d. simpl.
      rewrite depthAfter_app, depthAfter_arcLoopOps. reflexivity.
  - unfold straightBranch. cbv zeta. unfold bind, emit, getFont.
    cbn [draws strokes font ctxFontSize ops].
    rewrite (lineLoop_ok _ _ _ _ Hno). eexists. eexists.
    split; [reflexivity|]. cbn [ops]. repeat rewrite <- app_assoc.
    split; [reflexivity|]. intros d. simpl.
    rewrite depthAfter_app, depthAfter_lineLoopOps. reflexivity.
Qed.

(** X14: When the surface refuses the very next stroke, both branches of
    [generateImage] throw with saved states left on the stack: two in the
    arc branch (the frame of the arc and the frame of the glyph), one in
    the straight branch, and only the first glyph or line was filled. *)
Theorem refused_stroke_leaves_saved_states (prompt : jsstring) (fontSize : Z)
    (rotateAngle desiredArc : Q) (w : World) :
  strokeThrows E (strokes w) = true ->
  trim prompt <> [] ->
  (exists w' added c,
      arcBranch E prompt fontSize rotateAngle desiredArc w = Thrown w'
      /\ ops w' = ops w ++ added
      /\ depthAfter 0 added = Some 2%nat
      /\ nth_error prompt 0 = Some c
      /\ textsFilled added = [[c]])
  /\ (exists w' added line,
        straightBranch E prompt fontSize rotateAngle w = Thrown w'
        /\ ops w' = ops w ++ added
        /\ depthAfter 0 added = Some 1%nat
        /\ nth_error (wrapLines E (font w) prompt) 0 = Some line
        /\ textsFilled added = [line]).
Proof.
  intros Hthrow Hvis. split.
  - destruct prompt as [|c rest]; [exfalso; apply Hvis; reflexivity|].
    unfold arcBranch, rand. cbv zeta.
    unfold bind at 1. unfold bind at 1. unfold Math_random at 1. unfold ret at 1.
    unfold bind at 1.
    destruct (Nat.ltb 20 (List.length (c :: rest))).
    + unfold ret at 1. unfold bind at 1 2 3 4. unfold emit at 1 2 3. unfold getFont.
      cbn [draws strokes font ctxFontSize ops].
      unfold adjWidthsOf, split_chars. cbn [List.map combine].
      unfold bind at 1. cbn [arcLoop]. unfold bind, emit, strokeText.
      cbn [draws strokes font ctxFontSize ops]. rewrite Hthrow.
      eexists. eexists. exists c. split; [reflexivity|]. cbn [ops].
      repeat rewrite <- app_assoc. split; [reflexivity|].
      split; [reflexivity|]. split; reflexivity.
    + unfold bind at 1 2 3 4 5. unfold Math_random, ret.
      unfold emit at 1 2 3. unfold getFont.
      cbn [draws strokes font ctxFontSize ops].
      unfold adjWidthsOf, split_chars. cbn [List.map combine].
      unfold bind at 1. cbn [arcLoop]. unfold bind, emit, strokeText.
      cbn [draws strokes font ctxFontSize ops]. rewrite Hthrow.
      eexists. eexists. exists c. split; [reflexivity|]. cbn [ops].
      repeat rewrite <- app_assoc. split; [reflexivity|].
      split; [reflexivity|]. split; reflexivity.
  - pose proof (wrapLines_of_visible E (font w) prompt Hvis) as Hne.
    unfold straightBranch. cbv zeta. unfold bind at 1 2 3 4.
    unfold emit at 1 2 3. unfold getFont.
    cbn [draws strokes font ctxFontSize ops].
    destruct (wrapLines E (font w) prompt) as [|line lines]; [congruence|].
    unfold bind at 1. cbn [lineLoop]. unfold bind, emit, strokeText.
    cbn [draws strokes font ctxFontSize ops]. rewrite Hthrow.
    eexists. eexists. exists line. split; [reflexivity|]. cbn [ops].
    repeat rewrite <- app_assoc. split; [reflexivity|].
    split; [reflexivity|]. split; reflexivity.
Qed.

(** X15: [drawCenteredRotatedText] adds seven calls and restores the state it
    saved when the stroke is accepted; when it is refused the text was
    filled but the saved state is left on the stack. *)
Theorem drawCenteredRotatedText_stack (text : jsstring) (cx cy : Q)
    (fontSize : Z) (rotation : Q) (w : World) :
  exists w' added,
    ops w' = ops w ++ added
    /\ textsFilled added = [text]
    /\ (strokeThrows E (strokes w) = false ->
        drawCenteredRotatedText E text cx cy fontSize rotation w = Ok tt w'
        /\ List.length added = 7%nat
        /\ forall d, depthAfter d added = Some d)
    /\ (strokeThrows E (strokes w) = true ->
        drawCenteredRotatedText E text cx cy fontSize rotation w = Thrown w'
        /\ forall d, depthAfter d added = Some (S d)).
Proof.
  unfold drawCenteredRotatedText, bind, emit, strokeText.
  cbn [draws strokes font ctxFontSize ops].
  destruct (strokeThrows E (strokes w)).
  - eexists.
    exists [Save; Translate cx cy; Rotate rotation; FillText text 0 0;
            SetLineWidth
              (JS.Math_max 2
                 (inject_Z (JS.Math_round (inject_Z fontSize * 0.06))))].
    split; [|split; [|split]].
    4: { intros _. split; [reflexivity|]. intros d. reflexivity. }
    + cbn [ops]. repeat rewrite <- app_assoc. reflexivity.
    + reflexivity.
    + discriminate.
  - eexists.
    exists [Save; Translate cx cy; Rotate rotation; FillText text 0 0;
            SetLineWidth
              (JS.Math_max 2
                 (inject_Z (JS.Math_round (inject_Z fontSize * 0.06))));
            StrokeText text 0 0; Restore].
    split; [|split; [|split]].
    3: { intros _. split; [reflexivity|]. split; reflexivity. }
    + cbn [ops]. repeat rewrite <- app_assoc. reflexivity.
    + reflexivity.
    + discriminate.
Qed.

End Balance.

(* ------------------------------------------------------------------ *)
(** ** The render as a whole *)

Section WholeRender.

Context (E : Env).

Lemma textColorLoop_returns (baseHue : Q) (sMin sMax lMin lMax : Z) :
  forall k colors w w',
    draws w = draws w' ->
    exists cs,
      textColorLoop E baseHue sMin sMax lMin lMax k colors w
      = Ok (colors ++ cs) (advance (3 * k) w)
      /\ textColorLoop E baseHue sMin sMax lMin lMax k colors w'
         = Ok (colors ++ cs) (advance (3 * k) w')
      /\ List.length cs = k.
Proof.
  induction k as [|k IH]; intros colors w w' Hd.
  - exists []. simpl. unfold ret, advance. rewrite app_nil_r.
    destruct w, w'. auto.
  - simpl textColorLoop.
    do 3 (unfold bind at 1; rewrite randInt_run;
          cbn [draws strokes font ctxFontSize ops]).
    do 3 (unfold bind at 1; rewrite randInt_run;
          cbn [draws strokes font ctxFontSize ops]).
    rewrite <- Hd.
    match goal with
    | |- context [textColorLoop E _ _ _ _ _ k (colors ++ [?c]) ?w1 = _ /\
                  textColorLoop E _ _ _ _ _ k _ ?w2 = _ /\ _] =>
        destruct (IH (colors ++ [c]) w1 w2 eq_refl) as [cs [Hrun [Hrun' Hlen]]];
        exists (c :: cs)
    end.
    split; [|split; [|simpl; now rewrite Hlen]].
    + rewrite Hrun, <- app_assoc. simpl. f_equal.
      unfold advance. cbn [draws strokes font ctxFontSize ops]. f_equal. lia.
    + rewrite Hrun', <- app_assoc. simpl. f_equal.
      unfold advance. cbn [draws strokes font ctxFontSize ops]. f_equal. lia.
Qed.

Lemma pickTextColorsForBg_returns (bg : Color.t * Color.t) (n : Z) (w w' : World) :
  draws w = draws w' ->
  exists colors,
    pickTextColorsForBg E bg n w = Ok colors (advance (3 * Z.to_nat n) w)
    /\ pickTextColorsForBg E bg n w' = Ok colors (advance (3 * Z.to_nat n) w')
    /\ List.length colors = Z.to_nat n.
Proof.
  intros Hd. unfold pickTextColorsForBg. cbv zeta.
  destruct (JS.gt (avgLightness bg) 55);
    match goal with
    | |- context [textColorLoop E ?b ?s1 ?s2 ?l1 ?l2 ?k [] w] =>
        destruct (textColorLoop_returns b s1 s2 l1 l2 k [] w w' Hd)
          as [cs [Hrun [Hrun' Hlen]]]
    end; exists cs; repeat split; assumption.
Qed.

Lemma pickBgColors_returns (w w' : World) :
  draws w = draws w' ->
  exists bg,
    pickBgColors E w = Ok bg (advance 6 w)
    /\ pickBgColors E w' = Ok bg (advance 6 w').
Proof.
  intros Hd. destruct w as [d s f c o], w' as [d' s' f' c' o'].
  cbn [draws] in Hd. subst d'. unfold pickBgColors.
  do 6 (unfold bind at 1; rewrite randInt_run; cbn [draws strokes font ctxFontSize ops]).
  do 6 (unfold bind at 1; rewrite randInt_run; cbn [draws strokes font ctxFontSize ops]).
  unfold ret. eexists. split; reflexivity.
Qed.

Ltac palette_steps Hbg Hcol :=
  unfold tryBlock; cbv zeta;
  unfold bind at 1; unfold resizeCanvas at 1;
  cbn [draws strokes font ctxFontSize ops];
  unfold bind at 1; rewrite Hbg;
  do 2 (unfold bind at 1; unfold emit at 1;
        cbn [advance draws strokes font ctxFontSize ops app]);
  unfold bind at 1; rewrite randInt_run; cbn [draws strokes font ctxFontSize ops];
  unfold bind at 1; rewrite Hcol;
  do 2 (unfold bind at 1; rewrite randInt_run;
        cbn [advance draws strokes font ctxFontSize ops]);
  unfold bind at 1; unfold setFont at 1;
  cbn [draws strokes font ctxFontSize ops app];
  unfold bind at 1; unfold setCtxFontSize at 1;
  cbn [draws strokes font ctxFontSize ops app];
  do 6 (unfold bind at 1; unfold emit at 1;
        cbn [draws strokes font ctxFontSize ops app]);
  unfold bind at 1; unfold Math_random at 1;
  cbn [draws strokes font ctxFontSize ops];
  do 2 (unfold bind at 1; rewrite rand_run;
        cbn [draws strokes font ctxFontSize ops]).

(** The palette part of the render: from two worlds that consumed as many
    random values and strokes, whatever their canvas, font and
    [ctx.fontSize], the [try] block clears the canvas, paints the
    background, sets font, shadow, fill and outline, and hands the same
    world over to the same branch. *)
Lemma tryBlock_palette (prompt : jsstring) (w w' : World) :
  draws w = draws w' -> strokes w = strokes w' ->
  exists bg colors fontFamily fontSize u rotateAngle desiredArc n,
    let branch :=
      if JS.gt u 0.35
      then arcBranch E prompt fontSize rotateAngle desiredArc
      else straightBranch E prompt fontSize rotateAngle in
    tryBlock E prompt w
    = branch (paletteWorld n (strokes w) bg colors fontFamily fontSize)
    /\ tryBlock E prompt w'
       = branch (paletteWorld n (strokes w) bg colors fontFamily fontSize).
Proof.
  intros Hd Hs.
  destruct w as [d s f c o], w' as [d' s' f' c' o'].
  cbn [draws strokes] in Hd, Hs. subst d' s'. cbn [strokes].
  destruct (pickBgColors_returns
              (mkWorld d s defaultFont c [Resize 1400 900])
              (mkWorld d s defaultFont c' [Resize 1400 900]) eq_refl)
    as [bg [Hbg Hbg']].
  match type of Hbg with
  | _ = Ok _ ?w1 =>
      match type of Hbg' with
      | _ = Ok _ ?w2 =>
          set (k := (2 + Qfloor (random E (draws w1)
                                 * (inject_Z 1 + 1 - inject_Z 0) + inject_Z 0))%Z);
          destruct (pickTextColorsForBg_returns bg k
                      (mkWorld (S (draws w1)) s defaultFont c
                         (ops w1 ++ [SetFillStyle (LinearGradient 0 0 1400 900
                                       [(0, colorObjToCss (fst bg));
                                        (1, colorObjToCss (snd bg))]);
                                     FillRect 0 0 1400 900]))
                      (mkWorld (S (draws w2)) s defaultFont c'
                         (ops w2 ++ [SetFillStyle (LinearGradient 0 0 1400 900
                                       [(0, colorObjToCss (fst bg));
                                        (1, colorObjToCss (snd bg))]);
                                     FillRect 0 0 1400 900]))
                      eq_refl)
            as [colors [Hcol [Hcol' _]]]
      end
  end.
  subst k. cbn [advance draws strokes font ctxFontSize ops app] in Hcol, Hcol'.
  exists bg, colors. do 6 eexists. cbv zeta. split.
  - palette_steps Hbg Hcol. unfold paletteWorld. reflexivity.
  - palette_steps Hbg' Hcol'. unfold paletteWorld. reflexivity.
Qed.

Lemma textsFilled_arcLoopOps (fontSize : Z) (startAngle radius : Q) :
  forall glyphs curr,
    textsFilled (arcLoopOps fontSize startAngle radius glyphs curr)
    = List.map fst glyphs.
Proof.
  induction glyphs as [|[ch wd] rest IH]; intros curr; simpl; [reflexivity|].
  now rewrite IH.
Qed.

Lemma textsFilled_lineLoopOps (fontSize : Z) (startY lineHeight : Q) :
  forall lines i,
    textsFilled (lineLoopOps fontSize startY lineHeight lines i) = lines.
Proof.
  induction lines as [|line rest IH]; intros i; simpl; [reflexivity|].
  now rewrite IH.
Qed.

(** Both branches, when no stroke is refused: what they add to the log
    fills every character of the prompt (arc) or every wrapped line
    (straight), once and in order, and is balanced. *)
Lemma branches_fill_everything (prompt : jsstring) (fontSize : Z)
    (rotateAngle desiredArc : Q) (w : World) :
  (forall k, strokeThrows E k = false) ->
  (exists w' added,
      arcBranch E prompt fontSize rotateAngle desiredArc w = Ok tt w'
      /\ ops w' = ops w ++ added
      /\ depthAfter 0 added = Some 0%nat
      /\ textsFilled added = split_chars prompt)
  /\ (exists w' added,
        straightBranch E prompt fontSize rotateAngle w = Ok tt w'
        /\ ops w' = ops w ++ added
        /\ depthAfter 0 added = Some 0%nat
        /\ textsFilled added = wrapLines E (font w) prompt).
Proof.
  intros Hno. split.
  - unfold arcBranch, rand. cbv zeta.
    unfold bind at 1. unfold bind at 1. unfold Math_random at 1. unfold ret at 1.
    unfold bind at 1.
    destruct (Nat.ltb 20 (List.length prompt)).
    + unfold ret at 1. unfold bind, emit, getFont.
      cbn [draws strokes font ctxFontSize ops].
      rewrite (arcLoop_ok _ _ _ _ Hno). eexists. eexists.
      split; [reflexivity|]. cbn [ops]. repeat rewrite <- app_assoc.
      split; [reflexivity|]. split.
      * simpl. rewrite depthAfter_app, depthAfter_arcLoopOps. reflexivity.
      * simpl. rewrite textsFilled_app, textsFilled_arcLoopOps. simpl.
        rewrite app_nil_r. apply glyphsOf_chars.
    + unfold bind, emit, getFont, Math_random, ret.
      cbn [draws strokes font ctxFontSize ops].
      rewrite (arcLoop_ok _ _ _ _ Hno). eexists. eexists.
      split; [reflexivity|]. cbn [ops]. repeat rewrite <- app_assoc.
      split; [reflexivity|]. split.
      * simpl. rewrite depthAfter_app, depthAfter_arcLoopOps. reflexivity.
      * simpl. rewrite textsFilled_app, textsFilled_arcLoopOps. simpl.
        rewrite app_nil_r. apply glyphsOf_chars.
  - unfold straightBranch. cbv zeta. unfold bind, emit, getFont.
    cbn [draws strokes font ctxFontSize ops].
    rewrite (lineLoop_ok _ _ _ _ Hno). eexists. eexists.
    split; [reflexivity|]. cbn [ops]. repeat rewrite <- app_assoc.
    split; [reflexivity|]. split.
    + simpl. rewrite depthAfter_app, depthAfter_lineLoopOps. reflexivity.
    + simpl. rewrite textsFilled_app, textsFilled_lineLoopOps. simpl.
      now rewrite app_nil_r.
Qed.

(** X16: A render does not depend on what the canvas, the font of the context
    or [ctx.fontSize] held before it: from two worlds that consumed as many
    random values and strokes, the [try] block ends with the same result
    and the same world, drawing log included. *)
Theorem render_forgets_the_previous_canvas (prompt : jsstring) (w w' : World) :
  draws w = draws w' -> strokes w = strokes w' ->
  tryBlock E prompt w = tryBlock E prompt w'.
Proof.
  intros Hd Hs.
  destruct (tryBlock_palette prompt w w' Hd Hs)
    as [bg [colors [ff [fs [u [rot [arc [n [H1 H2]]]]]]]]].
  cbv zeta in H1, H2. rewrite H1, H2. reflexivity.
Qed.

(** X17: When the surface refuses no stroke the render returns.  Its log
    starts with the clearing of the canvas, restores every state it saves,
    and fills either every character of the prompt or every wrapped line,
    once and in order; the callback then exports the canvas and clears the
    loading flag. *)
Theorem render_completes_when_strokes_are_accepted (p : jsstring) (st : AppState) :
  (forall k, strokeThrows E k = false) ->
  exists w',
    tryBlock E p (world st) = Ok tt w'
    /\ (exists rest, ops w' = Resize 1400 900 :: rest)
    /\ depthAfter 0 (ops w') = Some 0%nat
    /\ (textsFilled (ops w') = split_chars p
        \/ textsFilled (ops w') = wrapLines E (font w') p)
    /\ timeoutCallback E p st
       = mkApp (prompt st) (DataUrl (ops w')) false w' (timers st) (errors st).
Proof.
  intros Hno.
  destruct (tryBlock_palette p (world st) (world st) eq_refl eq_refl)
    as [bg [colors [ff [fs [u [rot [arc [n [H1 _]]]]]]]]].
  cbv zeta in H1.
  set (pw := paletteWorld n (strokes (world st)) bg colors ff fs) in *.
  destruct (branches_fill_everything p fs rot arc pw Hno)
    as [[wa [adda [Ha [Hopsa [Hda Hta]]]]] [ws [adds [Hs [Hopss [Hds Hts]]]]]].
  destruct (JS.gt u 0.35).
  - exists wa. rewrite H1. split; [exact Ha|]. split; [|split; [|split]].
    + rewrite Hopsa. eexists. reflexivity.
    + rewrite Hopsa, depthAfter_app. simpl. exact Hda.
    + left. rewrite Hopsa, textsFilled_app. simpl. exact Hta.
    + unfold timeoutCallback. rewrite H1, Ha. reflexivity.
  - exists ws. rewrite H1. split; [exact Hs|]. split; [|split; [|split]].
    + rewrite Hopss. eexists. reflexivity.
    + rewrite Hopss, depthAfter_app. simpl. exact Hds.
    + right. rewrite Hopss, textsFilled_app. simpl. rewrite Hts.
      f_equal.
      unfold straightBranch in Hs. cbv zeta in Hs.
      unfold bind, emit, getFont in Hs.
      cbn [draws strokes font ctxFontSize ops] in Hs.
      rewrite (lineLoop_ok _ _ _ _ Hno) in Hs.
      injection Hs as <-. reflexivity.
    + unfold timeoutCallback. rewrite H1, Hs. reflexivity.
Qed.

End WholeRender.

(* ------------------------------------------------------------------ *)
(** ** The component around the render *)

Section Component.

Context (E : Env).

Lemma visible_iff (s : jsstring) :
  trim s <> [] <-> forallb isWhiteSpace s = false.
Proof.
  split; intros H.
  - destruct (forallb isWhiteSpace s) eqn:Hf; [|reflexivity].
    apply StrFacts.trim_nil_iff in Hf. congruence.
  - intros Ht. apply StrFacts.trim_nil_iff in Ht. congruence.
Qed.

Lemma generateImage_visible (st : AppState) :
  trim (prompt st) <> [] ->
  generateImage st
  = mkApp (prompt st) EmptyUrl true (world st) (timers st ++ [prompt st])
          (errors st).
Proof.
  intros H. unfold generateImage.
  destruct (trim (prompt st)); [congruence | reflexivity].
Qed.

(** X18: [generateImage] leaves the component as it is exactly when the
    prompt is empty or made of white space; otherwise it changes it (a
    callback is registered). *)
Theorem generation_skipped_iff_prompt_is_blank (st : AppState) :
  generateImage st = st <-> forallb isWhiteSpace (prompt st) = true.
Proof.
  split.
  - intros Heq. destruct (forallb isWhiteSpace (prompt st)) eqn:Hf; [reflexivity|].
    apply visible_iff in Hf. rewrite (generateImage_visible st Hf) in Heq.
    apply (f_equal timers) in Heq. simpl in Heq.
    apply (f_equal (@List.length jsstring)) in Heq.
    rewrite length_app in Heq. simpl in Heq. lia.
  - intros Hf. unfold generateImage.
    rewrite (StrFacts.trim_all_ws _ Hf). reflexivity.
Qed.

(** X19: [generateImage] does not look at the loading flag: triggered [n]
    times on a visible prompt before any timer fires, it registers [n]
    callbacks. *)
Theorem every_trigger_registers_a_callback (st : AppState) (n : nat) :
  trim (prompt st) <> [] ->
  timers (Nat.iter n generateImage st) = timers st ++ repeat (prompt st) n
  /\ prompt (Nat.iter n generateImage st) = prompt st
  /\ world (Nat.iter n generateImage st) = world st
  /\ ((0 < n)%nat ->
      loading (Nat.iter n generateImage st) = true
      /\ imageUrl (Nat.iter n generateImage st) = EmptyUrl).
Proof.
  intros Hvis. induction n as [|n [Ht [Hp [Hw _]]]].
  - simpl. rewrite app_nil_r. repeat split; lia.
  - simpl Nat.iter.
    assert (Hvis' : trim (prompt (Nat.iter n generateImage st)) <> [])
      by (rewrite Hp; exact Hvis).
    rewrite (generateImage_visible _ Hvis'). simpl.
    rewrite Ht, Hp, Hw, <- app_assoc.
    split; [|repeat split].
    f_equal. change (prompt st :: repeat (prompt st) n)
               with (repeat (prompt st) (S n)).
    rewrite <- repeat_cons. reflexivity.
Qed.

(** X20: Regenerate on a blank prompt sets the loading flag and nothing else:
    no callback is registered that would clear it, and the Generate button
    is disabled.  On a visible prompt it clears the image and registers
    the callback. *)
Theorem regenerate_on_blank_prompt_stays_loading (st : AppState) :
  (forallb isWhiteSpace (prompt st) = true ->
   regenerate st
   = mkApp (prompt st) (imageUrl st) true (world st) (timers st) (errors st)
   /\ generateDisabled (regenerate st) = true)
  /\ (forallb isWhiteSpace (prompt st) = false ->
      regenerate st
      = mkApp (prompt st) EmptyUrl true (world st) (timers st ++ [prompt st])
              (errors st)).
Proof.
  split; intros Hf.
  - assert (Hr : regenerate st
                 = mkApp (prompt st) (imageUrl st) true (world st) (timers st)
                         (errors st)).
    { unfold regenerate, generateImage, setLoading. simpl.
      rewrite (StrFacts.trim_all_ws _ Hf). reflexivity. }
    split; [exact Hr|]. rewrite Hr. reflexivity.
  - apply visible_iff in Hf. unfold regenerate.
    rewrite generateImage_visible by exact Hf. reflexivity.
Qed.

(** X21: One generation on a visible prompt, with no other callback pending:
    after the timer fired the loading flag is cleared, no callback is
    pending and the Generate button is enabled again; when the render
    returned the image is the export of the canvas and can be downloaded
    under the name stylish-text.png, when it threw there is no image,
    nothing to download and one more error is logged. *)
Theorem generation_cycle_outcome (st : AppState) :
  trim (prompt st) <> [] ->
  timers st = [] ->
  let st' := fireTimer E (generateImage st) in
  loading st' = false
  /\ timers st' = []
  /\ prompt st' = prompt st
  /\ generateDisabled st' = false
  /\ match tryBlock E (prompt st) (world st) with
     | Ok _ w' =>
         world st' = w'
         /\ imageUrl st' = DataUrl (ops w')
         /\ downloadImage st' = Some (lit "stylish-text.png", ops w')
         /\ errors st' = errors st
     | Thrown w' =>
         world st' = w'
         /\ imageUrl st' = EmptyUrl
         /\ downloadImage st' = None
         /\ errors st' = S (errors st)
     end.
Proof.
  intros Hvis Hnone. cbv zeta.
  rewrite (generateImage_visible st Hvis), Hnone.
  unfold fireTimer. cbn [timers prompt imageUrl loading world errors app].
  unfold timeoutCallback. cbn [timers prompt imageUrl loading world errors].
  assert (Hen : negb (truthy (trim (prompt st))) = false).
  { destruct (trim (prompt st)); [congruence | reflexivity]. }
  destruct (tryBlock E (prompt st) (world st)) as [[] w'|w'];
    unfold generateDisabled, downloadImage;
    cbn [timers prompt imageUrl loading world errors orb];
    rewrite Hen; repeat split; reflexivity.
Qed.

End Component.

(* ------------------------------------------------------------------ *)
(** ** Spacing of neighbouring glyphs *)

Section Spacing.

Context (E : Env) (f : Font).

Lemma sumOf_app (a b : list Q) : sumOf (a ++ b) == sumOf a + sumOf b.
Proof.
  induction a as [|x a IH]; simpl.
  - unfold sumOf at 2. simpl. ring.
  - rewrite !sumOf_cons, IH. ring.
Qed.

Lemma sumOf_firstn_S (l : list Q) (i : nat) (x : Q) :
  nth_error l i = Some x ->
  sumOf (firstn (S i) l) == sumOf (firstn i l) + x.
Proof.
  revert i. induction l as [|y l IH]; intros i H.
  - destruct i; discriminate.
  - destruct i as [|i].
    + injection H as ->. simpl. rewrite sumOf_cons.
      unfold sumOf. simpl. ring.
    + simpl in H. change (firstn (S (S i)) (y :: l)) with (y :: firstn (S i) l).
      change (firstn (S i) (y :: l)) with (y :: firstn i l).
      rewrite !sumOf_cons, (IH i H). ring.
Qed.

(** X8: Along the arc, the centres of two neighbouring glyphs are separated
    by half the adjusted width of the one plus half the adjusted width of
    the other: radius times the difference of their angles is the half
    sum of their widths, so slices neither overlap nor leave a gap. *)
Theorem neighbouring_glyphs_are_half_widths_apart (prompt : jsstring)
    (spacingFactor desiredArc : Q) (fontSize : Z) (i : nat)
    (p q : GlyphPlacement) :
  (0 < fontSize)%Z ->
  let adjWidths := adjWidthsOf E f prompt spacingFactor in
  let radius := radiusComputed (sumOf adjWidths) desiredArc fontSize in
  let layout := arcLayout E f prompt spacingFactor desiredArc fontSize in
  nth_error layout i = Some p ->
  nth_error layout (S i) = Some q ->
  exists wi wj,
    nth_error adjWidths i = Some wi
    /\ nth_error adjWidths (S i) = Some wj
    /\ radius * (angleRadians q - angleRadians p) == (wi + wj) / 2.
Proof.
  intros Hf adjWidths radius layout Hp Hq.
  destruct (arcLayout_midpoint E f prompt spacingFactor desiredArc fontSize i p Hp)
    as [wi [Hwi Hai]].
  destruct (arcLayout_midpoint E f prompt spacingFactor desiredArc fontSize
              (S i) q Hq) as [wj [Hwj Haj]].
  exists wi, wj. split; [exact Hwi|]. split; [exact Hwj|].
  rewrite Hai, Haj. rewrite (sumOf_firstn_S _ _ _ Hwi).
  fold adjWidths. fold radius.
  pose proof (radiusComputed_pos (sumOf adjWidths) desiredArc fontSize Hf) as Hr.
  fold radius in Hr.
  clearbody radius.
  generalize (sumOf (firstn i adjWidths)) (desiredArcClamped desiredArc).
  intros sm A. field. lra.
Qed.

End Spacing.

(* ------------------------------------------------------------------ *)
(** ** The further theorems on sample inputs *)

Lemma envPlain_accepts_strokes (k : nat) : strokeThrows envPlain k = false.
Proof. reflexivity. Qed.




Lemma gradient_stops_span_unit_interval_witness :
  exists o,
    nth_error
      (List.map fst
         (gradStops 3 [Color.mk 1 2 3; Color.mk 4 5 6; Color.mk 7 8 9] 0)) 2
    = Some o
    /\ o == 1.
Proof.
  pose proof (gradient_stops_span_unit_interval
                [Color.mk 1 2 3; Color.mk 4 5 6; Color.mk 7 8 9]) as H.
  cbv zeta in H. destruct H as [_ [_ [_ [_ H]]]]. apply H. simpl. lia.
Defined.


Lemma font_is_from_catalogue_witness :
  exists i : Z,
    randInt envPlain 0 (Z.of_nat (List.length fonts) - 1) world0
    = Ok i (advance 1 world0)
    /\ In (nth (Z.to_nat i) fonts []) fonts.
Proof.
  destruct (font_is_from_catalogue envPlain world0 (envPlain_random_unit 0))
    as [i [Hrun [_ [Hin _]]]].
  exists i. split; assumption.
Defined.

Lemma arcBranch_draws_arcLayout_witness :
  exists w',
    arcBranch envPlain (lit "AB") 100 0 2 world0 = Ok tt w'
    /\ Forall2 samePlacement (glyphsDrawn (ops w'))
         (arcLayout envPlain defaultFont (lit "AB")
            ((1 # 2) * (1.18 - 1.06) + 1.06) 2 100).
Proof.
  exact (arcBranch_draws_arcLayout envPlain (lit "AB") 100 0 2 world0
           envPlain_accepts_strokes eq_refl).
Defined.

Lemma neighbouring_glyphs_are_half_widths_apart_witness :
  exists p q wi wj,
    nth_error (arcLayout envPlain defaultFont (lit "AB") 1.1 2 100) 0 = Some p
    /\ nth_error (arcLayout envPlain defaultFont (lit "AB") 1.1 2 100) 1 = Some q
    /\ radiusComputed (sumOf (adjWidthsOf envPlain defaultFont (lit "AB") 1.1)) 2 100
       * (angleRadians q - angleRadians p)
       == (wi + wj) / 2.
Proof.
  assert (Hp : exists p, nth_error
                 (arcLayout envPlain defaultFont (lit "AB") 1.1 2 100) 0 = Some p)
    by (eexists; reflexivity).
  assert (Hq : exists q, nth_error
                 (arcLayout envPlain defaultFont (lit "AB") 1.1 2 100) 1 = Some q)
    by (eexists; reflexivity).
  destruct Hp as [p Hp], Hq as [q Hq].
  destruct (neighbouring_glyphs_are_half_widths_apart envPlain defaultFont
              (lit "AB") 1.1 2 100 0 p q ltac:(reflexivity) Hp Hq)
    as [wi [wj [_ [_ H]]]].
  exists p, q, wi, wj. split; [exact Hp|]. split; [exact Hq | exact H].
Defined.

Lemma straightBranch_draws_centred_lines_witness :
  exists w',
    straightBranch envPlain (lit "a b") 100 0 world0 = Ok tt w'
    /\ List.map fst (fillsOf (ops w')) = [lit "a b"].
Proof.
  destruct (straightBranch_draws_centred_lines envPlain (lit "a b") 100 0 world0
              envPlain_accepts_strokes) as [w' [Hrun [Hfills _]]].
  exists w'. split; [exact Hrun|]. rewrite Hfills. vm_compute. reflexivity.
Defined.

Lemma wrap_lines_are_not_empty_witness :
  wrapLines envPlain defaultFont (lit "a b") <> [].
Proof.
  destruct (wrap_lines_are_not_empty envPlain defaultFont (lit "a b")) as [_ H].
  apply H. vm_compute. discriminate.
Defined.

Lemma fitting_prompt_is_one_line_witness :
  wrapLines envPlain defaultFont (lit "a b") = [lit "a b"].
Proof.
  apply (fitting_prompt_is_one_line envPlain defaultFont (lit "a b")).
  - discriminate.
  - reflexivity.
  - intros k. destruct k as [|[|[|k]]]; vm_compute; discriminate.
Defined.

Lemma drawTextOnArc_fills_all_witness :
  exists w',
    drawTextOnArc envZeroWidth [ZWSP] 700 450 2 1.1 world0 = Ok tt w'
    /\ ops w' = [FillText [ZWSP] 700 450].
Proof.
  destruct (drawTextOnArc_fills_all envZeroWidth [ZWSP] 700 450 2 1.1 world0)
    as [w' [Hrun [_ Hfall]]].
  exists w'. split; [exact Hrun|]. apply Hfall. reflexivity.
Defined.

Lemma refused_stroke_leaves_saved_states_witness :
  exists w' added,
    arcBranch envStrokeFails (lit "AB") 100 0 2 world0 = Thrown w'
    /\ ops w' = ops world0 ++ added
    /\ depthAfter 0 added = Some 2%nat.
Proof.
  destruct (refused_stroke_leaves_saved_states envStrokeFails (lit "AB") 100 0 2
              world0 eq_refl ltac:(vm_compute; discriminate))
    as [[w' [added [c [Hrun [Hops [Hd _]]]]]] _].
  exists w', added. split; [exact Hrun|]. split; assumption.
Defined.

Lemma drawCenteredRotatedText_stack_witness :
  exists w',
    drawCenteredRotatedText envPlain (lit "AB") 700 450 100 0 world0 = Ok tt w'
    /\ List.length (ops w') = 7%nat.
Proof.
  destruct (drawCenteredRotatedText_stack envPlain (lit "AB") 700 450 100 0 world0)
    as [w' [added [Hops [_ [Hok _]]]]].
  destruct (Hok eq_refl) as [Hrun [Hlen _]].
  exists w'. split; [exact Hrun|]. rewrite Hops. exact Hlen.
Defined.

Lemma render_forgets_the_previous_canvas_witness :
  tryBlock envPlain (lit "AB") world0 = tryBlock envPlain (lit "AB") worldUsed.
Proof.
  apply (render_forgets_the_previous_canvas envPlain (lit "AB") world0 worldUsed);
    reflexivity.
Defined.

Lemma render_completes_when_strokes_are_accepted_witness :
  exists w',
    tryBlock envPlain (lit "AB") world0 = Ok tt w'
    /\ depthAfter 0 (ops w') = Some 0%nat.
Proof.
  destruct (render_completes_when_strokes_are_accepted envPlain (lit "AB")
              (app0 (lit "AB")) envPlain_accepts_strokes)
    as [w' [Hrun [_ [Hd _]]]].
  exists w'. split; assumption.
Defined.

Lemma generation_skipped_iff_prompt_is_blank_witness :
  generateImage (app0 (lit " ")) = app0 (lit " ").
Proof.
  apply (generation_skipped_iff_prompt_is_blank (app0 (lit " "))). reflexivity.
Defined.

Lemma every_trigger_registers_a_callback_witness :
  timers (Nat.iter 2 generateImage (app0 (lit "AB"))) = [lit "AB"; lit "AB"].
Proof.
  destruct (every_trigger_registers_a_callback (app0 (lit "AB")) 2
              ltac:(vm_compute; discriminate)) as [H _].
  exact H.
Defined.

Lemma regenerate_on_blank_prompt_stays_loading_witness :
  regenerate (mkApp (lit " ") (DataUrl []) false world0 [] 0)
  = mkApp (lit " ") (DataUrl []) true world0 [] 0.
Proof.
  destruct (regenerate_on_blank_prompt_stays_loading
              (mkApp (lit " ") (DataUrl []) false world0 [] 0)) as [H _].
  destruct (H eq_refl) as [Hr _]. exact Hr.
Defined.

Lemma generation_cycle_outcome_witness :
  loading (fireTimer envPlain (generateImage (app0 (lit "AB")))) = false
  /\ timers (fireTimer envPlain (generateImage (app0 (lit "AB")))) = [].
Proof.
  pose proof (generation_cycle_outcome envPlain (app0 (lit "AB"))
                ltac:(vm_compute; discriminate) eq_refl) as H.
  cbv zeta in H. destruct H as [H1 [H2 _]]. split; assumption.
Defined.
